(** * simple_chatbot: intent routing over a LangGraph state graph

    A shallow embedding of [src/index.ts] (the variant with the contact
    lookup, and in [Module Basic] the three-label variant), with the
    properties of the routing table, the nodes and the run loop.

    Conventions of the embedding:
    - a JS string is a [string] (bytes of its UTF-8 encoding);
    - [undefined] is [None];
    - an [async] function is a computation in the monad [M]: it threads
      the outside world (the hosted model), the module-level variable
      [contacts] and the trace of observable events, and it either
      returns a value or throws;
    - the graph runtime ([StateGraph], [compile], [invoke]) is a small
      interpreter over the graph the source builds: it reads the input
      into the channels of the state, enters a node, writes the state
      the node returns into the channels (the messages through the
      reducer of [MessagesAnnotation], which merges by message id; the
      intent as the last value written), and follows the node's outgoing
      edge, for at most [recursionLimit] steps.

    The copy of the source that carries comments differs from the one
    embedded here only in the wording of the contact persona; it is
    [Module Commented]. *)

From Stdlib Require Import Ascii.
From stdpp Require Import gmap strings list fin_maps.

(** ** Strings *)

(** The double quote character, as a one-character string. *)
Definition dq : string := String "034"%char EmptyString.
(** The backslash, as a one-character string. *)
Definition bslash : string := String "092"%char EmptyString.

(** [String.prototype.toLowerCase] on one byte: the letters A to Z are
    moved to a to z, every other byte is kept.  (On the bytes of a
    non-ASCII character JS may change the character; no such character
    lower-cases to one of the letters e, x, i, t, so the comparison of
    the result with the word the loop tests for is not affected.) *)
Definition lower_ascii (c : ascii) : ascii :=
  let n := nat_of_ascii c in
  if ((65 <=? n) && (n <=? 90))%nat then ascii_of_nat (n + 32) else c.

Fixpoint toLowerCase (s : string) : string :=
  match s with
  | EmptyString => EmptyString
  | String c r => String (lower_ascii c) (toLowerCase r)
  end.

(** [needle] occurs in [hay]. *)
Definition contains (needle hay : string) : Prop :=
  ∃ pre post, hay = pre +:+ needle +:+ post.

(** ** JSON.stringify on the contact list *)

Definition hex_digit (n : nat) : ascii :=
  nth n (String.list_ascii_of_string "0123456789abcdef") "0"%char.

(** [QuoteJSONString] on one byte. *)
Definition json_escape (c : ascii) : string :=
  let n := nat_of_ascii c in
  if (n =? 34)%nat then bslash +:+ dq
  else if (n =? 92)%nat then bslash +:+ bslash
  else if (n =? 8)%nat then bslash +:+ "b"
  else if (n =? 12)%nat then bslash +:+ "f"
  else if (n =? 10)%nat then bslash +:+ "n"
  else if (n =? 13)%nat then bslash +:+ "r"
  else if (n =? 9)%nat then bslash +:+ "t"
  else if (n <? 32)%nat then
    bslash +:+ "u00" +:+ String (hex_digit (n / 16)) (String (hex_digit (n mod 16)) EmptyString)
  else String c EmptyString.

Fixpoint json_escape_string (s : string) : string :=
  match s with
  | EmptyString => EmptyString
  | String c r => json_escape c +:+ json_escape_string r
  end.

Definition json_string (s : string) : string :=
  dq +:+ json_escape_string s +:+ dq.

Definition newline : string := String "010"%char EmptyString.

(** ** Data model *)

(** [type Contact = { name: string; phone: string; city: string }] *)
Record Contact := { name : string; phone : string; city : string }.

(** The initial value of the module-level [let contacts]. *)
Definition contacts : list Contact :=
  [ {| name := "Andi"; phone := "08123456789"; city := "Makassar" |};
    {| name := "Budi"; phone := "08987654321"; city := "Bone" |} ].

(** One object of the array, as [JSON.stringify(_, null, 2)] prints it at
    depth one: members at four spaces, the closing brace at two. *)
Definition json_contact (c : Contact) : string :=
  "{" +:+ newline +:+
  "    " +:+ json_string "name" +:+ ": " +:+ json_string (name c) +:+ "," +:+ newline +:+
  "    " +:+ json_string "phone" +:+ ": " +:+ json_string (phone c) +:+ "," +:+ newline +:+
  "    " +:+ json_string "city" +:+ ": " +:+ json_string (city c) +:+ newline +:+
  "  }".

Fixpoint json_elements (cs : list Contact) : string :=
  match cs with
  | [] => EmptyString
  | [c] => "  " +:+ json_contact c
  | c :: r => "  " +:+ json_contact c +:+ "," +:+ newline +:+ json_elements r
  end.

(** [JSON.stringify(contacts, null, 2)] *)
Definition JSON_stringify (cs : list Contact) : string :=
  match cs with
  | [] => "[]"
  | _ => "[" +:+ newline +:+ json_elements cs +:+ newline +:+ "]"
  end.

(** Messages of [@langchain/core/messages]: the constructor, the text
    and the id, which is [undefined] until something sets it. *)
Inductive Role := human | system | ai.

Record Message := { role : Role; content : string; id : option string }.

Definition HumanMessage (text : string) : Message :=
  {| role := human; content := text; id := None |}.
Definition SystemMessage (text : string) : Message :=
  {| role := system; content := text; id := None |}.

(** [ChatAnnotation.State]: the message list of [MessagesAnnotation] and
    the field [intent], a label or [undefined]. *)
Record ChatState := { messages : list Message; intent : option string }.

(** [state.messages[state.messages.length - 1]]: [undefined] on the empty
    list (the index is -1 there in the source and 0 here; neither holds
    an element). *)
Definition last_message (state : ChatState) : option Message :=
  messages state !! (length (messages state) - 1).

(** ** Effects *)

(** What an [async] function can throw. *)
Inductive Error :=
| TypeError                 (* [.content] read on [undefined] *)
| ModelError                (* the call to the hosted model rejects *)
| SchemaError               (* the structured output does not parse against the schema *)
| GraphError (what : string). (* raised by the graph runtime *)

Inductive Result (A : Type) :=
| Ok (a : A)
| Throw (e : Error).
Arguments Ok {A} a.
Arguments Throw {A} e.

(** What an observer of the process sees, in order. *)
Inductive Event :=
| EvQuestion (prompt : string)         (* [rl.question(prompt, _)] *)
| EvLog (text : string)                (* [console.log] *)
| EvClose                              (* [rl.close()] *)
| EvGraph (state : ChatState)          (* [app.invoke(state)] *)
| EvNode (node : string)               (* the runtime enters a node *)
| EvStructured (input : list Message)  (* [model.withStructuredOutput(schema).invoke(input)] *)
| EvInvoke (input : list Message).     (* [model.invoke(input)] *)

(** The hosted model, a black box: each call sees the whole world [W] and
    may change it; [None] is a rejected call. The structured call returns
    the raw value of the field [intent], before the schema is applied. *)
Record Model (W : Type) := {
  model_invoke : list Message → W → option Message * W;
  model_structured : list Message → W → option string * W;
}.
Arguments model_invoke {W} _ _ _.
Arguments model_structured {W} _ _ _.

(** The state of the process: the world outside, the module-level
    variable [contacts], and the events so far. *)
Record Sys (W : Type) := {
  world : W;
  var_contacts : list Contact;
  trace : list Event;
}.
Arguments world {W} _.
Arguments var_contacts {W} _.
Arguments trace {W} _.

Definition M (W A : Type) : Type := Sys W → Result A * Sys W.

Definition ret {W A} (a : A) : M W A := λ s, (Ok a, s).

Definition throw {W A} (e : Error) : M W A := λ s, (Throw e, s).

Definition bind {W A B} (m : M W A) (k : A → M W B) : M W B :=
  λ s, match m s with
       | (Ok a, s') => k a s'
       | (Throw e, s') => (Throw e, s')
       end.

Declare Scope chat_scope.
Delimit Scope chat_scope with chat.
Notation "x <- m ;; k" := (bind m (λ x, k))
  (at level 20, m at level 99, k at level 200, only parsing) : chat_scope.
Notation "m ;; k" := (bind m (λ _, k))
  (at level 100, k at level 200, only parsing, right associativity) : chat_scope.
Open Scope chat_scope.

Definition log {W} (e : Event) : M W unit :=
  λ s, (Ok tt, {| world := world s; var_contacts := var_contacts s;
                  trace := trace s ++ [e] |}).

(** Reading the variable [contacts]. *)
Definition read_contacts {W} : M W (list Contact) :=
  λ s, (Ok (var_contacts s), s).

(** [last.content]: a [TypeError] when [last] is [undefined]. *)
Definition content_of {W} (last : option Message) : M W string :=
  match last with
  | Some m => ret (content m)
  | None => throw TypeError
  end.

(** [await model.invoke(input)] *)
Definition invoke {W} (model : Model W) (input : list Message) : M W Message :=
  λ s, let '(r, w) := model_invoke model input (world s) in
       let s' := {| world := w; var_contacts := var_contacts s;
                    trace := trace s ++ [EvInvoke input] |} in
       match r with
       | Some resp => (Ok resp, s')
       | None => (Throw ModelError, s')
       end.

(** [await model.withStructuredOutput(schema).invoke(input)], for a schema
    [z.object({ intent: z.enum(labels) })]: the value of [resp.intent].
    A raw value outside [labels] does not parse, and the call rejects. *)
Definition withStructuredOutput_invoke {W} (model : Model W)
    (labels : list string) (input : list Message) : M W string :=
  λ s, let '(r, w) := model_structured model input (world s) in
       let s' := {| world := w; var_contacts := var_contacts s;
                    trace := trace s ++ [EvStructured input] |} in
       match r with
       | Some raw => if bool_decide (raw ∈ labels) then (Ok raw, s')
                     else (Throw SchemaError, s')
       | None => (Throw ModelError, s')
       end.

(** ** The nodes *)

Section Nodes.
Context {W : Type}.
(** [const model = new ChatOpenAI({ model: "gpt-4o", temperature: 0 })] *)
Variable model : Model W.

(** The labels of [z.enum([...])] in [classifierNode]. *)
Definition intent_labels : list string :=
  ["emotional"; "logical"; "general"; "contact_request"].

Definition classifier_prompt : string :=
"Classify the user message as either:
       - 'emotional': for emotional support or feelings
       - 'logical': for facts, information, or general queries not covered by the above
       - 'general': for greetings (e.g., " +:+ dq +:+ "hello" +:+ dq +:+ ", " +:+ dq +:+ "hi" +:+ dq +:+ ") or simple small talk
       - 'contact_request': if the user asks for contact information, phone number, contact list
       ".

Definition classifierNode (state : ChatState) : M W ChatState :=
  let last := last_message state in
  let schema := intent_labels in
  text <- content_of last;;
  resp <- withStructuredOutput_invoke model schema
            [ SystemMessage classifier_prompt;
              HumanMessage ("Message: " +:+ dq +:+ text +:+ dq) ];;
  ret {| messages := messages state; intent := Some resp |}.

(** The template of the contact persona, before and after
    [${JSON.stringify(contacts, null, 2)}]. *)
Definition contact_prompt_head : string :=
"Kamu adalah asisten kontak. 
  Gunakan data kontak yang diberikan untuk menjawab pertanyaan user.
  Jika user bertanya nomor seseorang, cari di daftar. 
  Jika tidak ditemukan, jawab dengan sopan " +:+ dq +:+ "kontak tidak ditemukan" +:+ dq +:+ ". 
  Jika user minta menambahkan kontak, katakan bahwa fungsi tambah belum tersedia 
  (kecuali kalau nanti ditambahkan update DB).
      
  Daftar kontak:
  ".

Definition contact_prompt_tail : string :=
"
      ".

Definition contact_prompt (cs : list Contact) : string :=
  contact_prompt_head +:+ JSON_stringify cs +:+ contact_prompt_tail.

Definition contactNode (state : ChatState) : M W ChatState :=
  let last := last_message state in
  cs <- read_contacts;;
  text <- content_of last;;
  resp <- invoke model
            [ SystemMessage (contact_prompt cs);
              HumanMessage ("Pesan user: " +:+ dq +:+ text +:+ dq) ];;
  ret {| messages := messages state ++ [resp]; intent := intent state |}.

Definition logical_prompt : string :=
"You are a purely logical assistant. Focus only on facts and information.
       Provide clear, concise answers based on logic and evidence.
       Do not address emotions or provide emotional support.
       Be direct and straightforward in your responses.".

Definition logicalNode (state : ChatState) : M W ChatState :=
  let last := last_message state in
  text <- content_of last;;
  resp <- invoke model
            [ SystemMessage logical_prompt;
              HumanMessage ("Message: " +:+ dq +:+ text +:+ dq) ];;
  ret {| messages := messages state ++ [resp]; intent := intent state |}.

Definition emotional_prompt : string :=
"You are a compassionate therapist. Focus on the emotional aspects of the user's message.
       Show empathy, validate their feelings, and help them process their emotions.
       Ask thoughtful questions to help them explore their feelings more deeply.
       Avoid giving logical solutions unless explicitly asked.".

Definition emotionalNode (state : ChatState) : M W ChatState :=
  let last := last_message state in
  text <- content_of last;;
  resp <- invoke model
            [ SystemMessage emotional_prompt;
              HumanMessage ("Message: " +:+ dq +:+ text +:+ dq) ];;
  ret {| messages := messages state ++ [resp]; intent := intent state |}.

Definition general_prompt : string :=
"You are a friendly chatbot. Handle greetings and small talk casually.
       Be warm, polite, and concise.".

Definition generalNode (state : ChatState) : M W ChatState :=
  let last := last_message state in
  text <- content_of last;;
  resp <- invoke model
            [ SystemMessage general_prompt;
              HumanMessage ("Message: " +:+ dq +:+ text +:+ dq) ];;
  ret {| messages := messages state ++ [resp]; intent := intent state |}.

End Nodes.

(** ** The graph *)

(** [START] and [END] of [@langchain/langgraph]. *)
Definition START : string := "__start__".
Definition END : string := "__end__".

(** The default [recursionLimit] of [invoke]: the number of steps a run
    may take before the runtime throws. *)
Definition recursionLimit : nat := 25.

(** *** The channels of the state

    [ChatAnnotation] spreads [MessagesAnnotation.spec], so the channel
    [messages] is written through [messagesStateReducer]; the channel
    [intent] keeps the last value written. *)

(** The ids set among [ms]. *)
Definition ids (ms : list Message) : list string := omap id ms.

(** [v4()], taken as an id that is not in use. *)
Definition uuid (used : list string) : string := fresh used.

(** The first loops of the reducer: every message without id is given a
    new one, in order. *)
Fixpoint assign_ids (used : list string) (ms : list Message) : list Message :=
  match ms with
  | [] => []
  | m :: rest =>
      match id m with
      | Some _ => m :: assign_ids used rest
      | None =>
          let u := uuid used in
          {| role := role m; content := content m; id := Some u |}
            :: assign_ids (u :: used) rest
      end
  end.

(** [mergedById.get(x)]: the place of the message with id [x]. The map
    is filled from the front, so of two places with the same id the
    later one is kept. *)
Fixpoint find_id (merged : list Message) (x : string) : option nat :=
  match merged with
  | [] => None
  | m :: rest =>
      match find_id rest x with
      | Some i => Some (S i)
      | None => if bool_decide (id m = Some x) then Some 0 else None
      end
  end.

(** One round of the merging loop: a message whose id is already there
    takes the place of the one that had it, any other is pushed. *)
Definition merge_one (merged : list Message) (m : Message) : list Message :=
  match id m with
  | Some x =>
      match find_id merged x with
      | Some i => <[i := m]> merged
      | None => merged ++ [m]
      end
  | None => merged ++ [m]
  end.

(** [messagesStateReducer(left, right)], on the messages this program
    has (none of them a [RemoveMessage]). *)
Definition messagesStateReducer (left right : list Message) : list Message :=
  let left' := assign_ids (ids left ++ ids right) left in
  let right' := assign_ids (ids left' ++ ids right) right in
  foldl merge_one left' right'.

(** Writing what a node returned (or the input) into the channels: the
    messages go through the reducer; an [undefined] intent is no write. *)
Definition apply_update (current update : ChatState) : ChatState :=
  {| messages := messagesStateReducer (messages current) (messages update);
     intent := match intent update with
               | Some label => Some label
               | None => intent current
               end |}.

(** The state of a run once the input of [invoke] is read in: the
    channels start out as the empty list and [undefined]. *)
Definition read_input (input : ChatState) : ChatState :=
  apply_update {| messages := []; intent := None |} input.

(** *** Objects used as tables *)

(** What [object[key]] yields on an object literal with string values:
    the string of an own property, or a member inherited from
    [Object.prototype] (a function, or for [__proto__] the prototype). *)
Inductive JsValue :=
| JsString (s : string)
| JsInherited.

(** The names [Object.prototype] defines. *)
Definition Object_prototype : list string :=
  [ "constructor"; "__defineGetter__"; "__defineSetter__"; "hasOwnProperty";
    "__lookupGetter__"; "__lookupSetter__"; "isPrototypeOf";
    "propertyIsEnumerable"; "toString"; "valueOf"; "__proto__";
    "toLocaleString" ].

(** [object[key]], [None] being [undefined]. *)
Definition js_get (object : gmap string string) (key : string) : option JsValue :=
  match object !! key with
  | Some v => Some (JsString v)
  | None => if bool_decide (key ∈ Object_prototype) then Some JsInherited else None
  end.

Section Graph.
Context {W : Type}.

Definition Node : Type := ChatState → M W ChatState.

(** A [StateGraph] under construction: the nodes by name, the plain edges
    by source, and the conditional edges by source (the function that
    picks a key, and the object that maps each key to a node). *)
Record StateGraph := {
  nodes : gmap string Node;
  edges : gmap string string;
  branches : gmap string ((ChatState → string) * gmap string string);
}.

(** [new StateGraph(ChatAnnotation)] *)
Definition new_StateGraph : StateGraph :=
  {| nodes := ∅; edges := ∅; branches := ∅ |}.

Definition addNode (key : string) (action : Node) (g : StateGraph) : StateGraph :=
  {| nodes := <[key := action]> (nodes g); edges := edges g; branches := branches g |}.

Definition addEdge (startKey endKey : string) (g : StateGraph) : StateGraph :=
  {| nodes := nodes g; edges := <[startKey := endKey]> (edges g); branches := branches g |}.

Definition addConditionalEdges (source : string) (path : ChatState → string)
    (pathMap : gmap string string) (g : StateGraph) : StateGraph :=
  {| nodes := nodes g; edges := edges g;
     branches := <[source := (path, pathMap)]> (branches g) |}.

(** Where a run goes after [cur], the state being [state]: along the
    plain edge if there is one, else to what the conditional edge's key
    yields in its object, read as [ends[key]]. A node name is gone to; a
    key that yields [undefined] is an error of the runtime; a key that
    yields an inherited member names no node, so that nothing is
    scheduled and the run ends, as it does after a node without outgoing
    edge. *)
Definition next_node (g : StateGraph) (cur : string) (state : ChatState) : M W string :=
  match edges g !! cur with
  | Some target => ret target
  | None =>
      match branches g !! cur with
      | Some (path, pathMap) =>
          match js_get pathMap (path state) with
          | Some (JsString target) => ret target
          | Some JsInherited => ret END
          | None => throw (GraphError "Branch condition returned unknown or null destination")
          end
      | None => ret END
      end
  end.

(** The run from node [cur] on: enter the node on the state in the
    channels, write what it returns into the channels, move on; stop at
    [END]. *)
Fixpoint run_from (g : StateGraph) (fuel : nat) (cur : string) (state : ChatState)
    : M W ChatState :=
  if bool_decide (cur = END) then ret state
  else
    match fuel with
    | 0 => throw (GraphError "Recursion limit reached without hitting a stop condition")
    | S fuel' =>
        match nodes g !! cur with
        | None => throw (GraphError "Unknown node")
        | Some action =>
            log (EvNode cur);;
            update <- action state;;
            let state' := apply_update state update in
            next <- next_node g cur state';;
            run_from g fuel' next state'
        end
    end.

(** [workflow.compile().invoke(state)] *)
Definition graph_invoke (g : StateGraph) (input : ChatState) : M W ChatState :=
  log (EvGraph input);;
  let state := read_input input in
  first <- next_node g START state;;
  run_from g recursionLimit first state.

End Graph.
Arguments StateGraph W : clear implicits.
Arguments Node W : clear implicits.

Notation "g |> f" := (f g) (at level 45, left associativity, only parsing).

Section Workflow.
Context {W : Type}.
Variable model : Model W.

(** [(state) => state.intent ?? "logical"] *)
Definition route (state : ChatState) : string :=
  default "logical" (intent state).

(** The object literal of [addConditionalEdges]: its own properties. It
    is read with [js_get], which also finds what the literal inherits
    from [Object.prototype]. *)
Definition pathMap : gmap string string :=
  list_to_map
    [ ("logical", "logical");
      ("emotional", "emotional");
      ("general", "general");
      ("contact_request", "contact_request") ].

Definition workflow : StateGraph W :=
  new_StateGraph
  |> addNode "classifier" (classifierNode model)
  |> addNode "logical" (logicalNode model)
  |> addNode "emotional" (emotionalNode model)
  |> addNode "general" (generalNode model)
  |> addNode "contact_request" (contactNode model)
  |> addEdge START "classifier"
  |> addConditionalEdges "classifier" route pathMap
  |> addEdge "logical" END
  |> addEdge "emotional" END
  |> addEdge "general" END
  |> addEdge "contact_request" END.

(** [const app = workflow.compile()], used as [app.invoke]. *)
Definition app : Node W := graph_invoke workflow.

(** The node the dispatcher picks once the classifier has returned
    [state], if it picks one: the key of [route], read in [pathMap]. *)
Definition dispatch (state : ChatState) : option string :=
  match js_get pathMap (route state) with
  | Some (JsString node) => Some node
  | _ => None
  end.

(** ** The run loop *)

(** [state.messages.push(new HumanMessage(userInput))] *)
Definition push_user (state : ChatState) (userInput : string) : ChatState :=
  {| messages := messages state ++ [HumanMessage userInput]; intent := intent state |}.

(** The [while (true)] of [main] over the lines typed at the prompt. With
    no line left the question stays pending and the loop is left as it
    stands. The state the loop holds at the end is returned. *)
Fixpoint main_loop (run : Node W) (lines : list string) (state : ChatState)
    {struct lines} : M W ChatState :=
  log (EvQuestion "👤 Kamu: ");;
  match lines with
  | [] => ret state
  | userInput :: rest =>
      if bool_decide (toLowerCase userInput = "exit") then
        log (EvLog "👋 Chat selesai.");;
        log EvClose;;
        ret state
      else
        let state := push_user state userInput in
        state <- run state;;
        text <- content_of (last_message state);;
        log (EvLog ("🤖 Bot: " +:+ text));;
        main_loop run rest state
  end.

Definition main (lines : list string) : M W ChatState :=
  main_loop app lines {| messages := []; intent := None |}.

End Workflow.

(** ** The variant without contact lookup

    [src/index.ts] as it stands without the contact list: three labels,
    a classifier that knows only these, and the same three persona nodes
    and run loop as above. *)
Module Basic.
Section Workflow.
Context {W : Type}.
(** [const model = new ChatOpenAI({ model: "gpt-4o-mini", temperature: 0 })] *)
Variable model : Model W.

Definition intent_labels : list string := ["emotional"; "logical"; "general"].

Definition classifier_prompt : string :=
"Classify the user message as either:
       - 'emotional': for emotional support or feelings
       - 'logical': for facts, information, or general queries not covered by the above
       - 'general': for greetings (e.g., " +:+ dq +:+ "hello" +:+ dq +:+ ", " +:+ dq +:+ "hi" +:+ dq +:+ ") or simple small talk".

Definition classifierNode (state : ChatState) : M W ChatState :=
  let last := last_message state in
  let schema := intent_labels in
  text <- content_of last;;
  resp <- withStructuredOutput_invoke model schema
            [ SystemMessage classifier_prompt;
              HumanMessage ("Message: " +:+ dq +:+ text +:+ dq) ];;
  ret {| messages := messages state; intent := Some resp |}.

(** The object literal of its [addConditionalEdges]: its own properties,
    read with [js_get]. *)
Definition pathMap : gmap string string :=
  list_to_map
    [ ("logical", "logical");
      ("emotional", "emotional");
      ("general", "general") ].

Definition workflow : StateGraph W :=
  new_StateGraph
  |> addNode "classifier" classifierNode
  |> addNode "logical" (logicalNode model)
  |> addNode "emotional" (emotionalNode model)
  |> addNode "general" (generalNode model)
  |> addEdge START "classifier"
  |> addConditionalEdges "classifier" route pathMap
  |> addEdge "logical" END
  |> addEdge "emotional" END
  |> addEdge "general" END.

Definition app : Node W := graph_invoke workflow.

Definition dispatch (state : ChatState) : option string :=
  match js_get pathMap (route state) with
  | Some (JsString node) => Some node
  | _ => None
  end.

Definition main (lines : list string) : M W ChatState :=
  main_loop app lines {| messages := []; intent := None |}.

End Workflow.
End Basic.

(** ** Vocabulary of the properties *)

Section Vocabulary.
Context {W : Type}.
Variable model : Model W.

(** The state of the process after [evs] more events, the world being [w]. *)
Definition logged (s : Sys W) (w : W) (evs : list Event) : Sys W :=
  {| world := w; var_contacts := var_contacts s; trace := trace s ++ evs |}.

(** The responder nodes, under the names [addNode] gives them. *)
Definition responders : list (string * Node W) :=
  [ ("logical", logicalNode model);
    ("emotional", emotionalNode model);
    ("general", generalNode model);
    ("contact_request", contactNode model) ].

Definition classifier_input (text : string) : list Message :=
  [ SystemMessage classifier_prompt;
    HumanMessage ("Message: " +:+ dq +:+ text +:+ dq) ].

Definition basic_classifier_input (text : string) : list Message :=
  [ SystemMessage Basic.classifier_prompt;
    HumanMessage ("Message: " +:+ dq +:+ text +:+ dq) ].

Definition persona (label : string) : string :=
  if bool_decide (label = "logical") then logical_prompt
  else if bool_decide (label = "emotional") then emotional_prompt
  else general_prompt.

(** What the responder registered under [label] sends to the model when
    the variable [contacts] holds [cs] and the last message reads [text]. *)
Definition responder_input (label : string) (cs : list Contact) (text : string)
    : list Message :=
  if bool_decide (label = "contact_request") then
    [ SystemMessage (contact_prompt cs);
      HumanMessage ("Pesan user: " +:+ dq +:+ text +:+ dq) ]
  else
    [ SystemMessage (persona label);
      HumanMessage ("Message: " +:+ dq +:+ text +:+ dq) ].

(** [node] is a responder that sends [input_of contacts last.content]. *)
Definition responds_with (node : Node W)
    (input_of : list Contact → string → list Message) : Prop :=
  ∀ st s,
    node st s =
      match last_message st with
      | None => (Throw TypeError, s)
      | Some last =>
          let input := input_of (var_contacts s) (content last) in
          match model_invoke model input (world s) with
          | (Some resp, w) =>
              (Ok {| messages := messages st ++ [resp]; intent := intent st |},
               logged s w [EvInvoke input])
          | (None, w) => (Throw ModelError, logged s w [EvInvoke input])
          end
      end.

(** [node] is a classifier for the schema [labels] that sends
    [input_of last.content]. *)
Definition classifies_with (node : Node W) (labels : list string)
    (input_of : string → list Message) : Prop :=
  ∀ st s,
    node st s =
      match last_message st with
      | None => (Throw TypeError, s)
      | Some last =>
          let input := input_of (content last) in
          match model_structured model input (world s) with
          | (Some raw, w) =>
              if bool_decide (raw ∈ labels)
              then (Ok {| messages := messages st; intent := Some raw |},
                    logged s w [EvStructured input])
              else (Throw SchemaError, logged s w [EvStructured input])
          | (None, w) => (Throw ModelError, logged s w [EvStructured input])
          end
      end.

(** A graph wired as the source wires it: [START] leads to the
    classifier, the classifier's conditional edge leads each label of
    the schema to the responder of that name, and each responder leads
    to [END]. *)
Record wired (g : StateGraph W) (cls : Node W) (labels : list string)
    (cin_of : string → list Message) : Prop := {
  wired_start : ∀ st, next_node g START st = ret "classifier";
  wired_classifier : nodes g !! "classifier" = Some cls;
  wired_classifies : classifies_with cls labels cin_of;
  wired_branch : ∀ st label,
    label ∈ labels → intent st = Some label →
    next_node g "classifier" st = ret label;
  wired_responder : ∀ label,
    label ∈ labels →
    label ≠ END ∧
    ∃ node, nodes g !! label = Some node
            ∧ responds_with node (responder_input label)
            ∧ ∀ st, next_node g label st = ret END;
}.

(** The ways one invocation of the graph on the input [st] can go, with
    the result and the state of the process it leaves. The nodes read
    the state as the channels hold it, [read_input st]; the reply of the
    responder is merged into it by the reducer. *)
Inductive turn (labels : list string) (cin_of : string → list Message)
    (st : ChatState) (s : Sys W) : Result ChatState → Sys W → Prop :=
| turn_empty :
    messages st = [] →
    turn labels cin_of st s (Throw TypeError)
      (logged s (world s) [EvGraph st; EvNode "classifier"])
| turn_rejected last w :
    last_message (read_input st) = Some last →
    model_structured model (cin_of (content last)) (world s) = (None, w) →
    turn labels cin_of st s (Throw ModelError)
      (logged s w [EvGraph st; EvNode "classifier";
                   EvStructured (cin_of (content last))])
| turn_unparsed last raw w :
    last_message (read_input st) = Some last →
    model_structured model (cin_of (content last)) (world s) = (Some raw, w) →
    raw ∉ labels →
    turn labels cin_of st s (Throw SchemaError)
      (logged s w [EvGraph st; EvNode "classifier";
                   EvStructured (cin_of (content last))])
| turn_unanswered last label w1 w2 :
    last_message (read_input st) = Some last →
    model_structured model (cin_of (content last)) (world s) = (Some label, w1) →
    label ∈ labels →
    model_invoke model (responder_input label (var_contacts s) (content last)) w1
      = (None, w2) →
    turn labels cin_of st s (Throw ModelError)
      (logged s w2 [EvGraph st; EvNode "classifier";
                    EvStructured (cin_of (content last));
                    EvNode label;
                    EvInvoke (responder_input label (var_contacts s) (content last))])
| turn_answered last label w1 resp w2 :
    last_message (read_input st) = Some last →
    model_structured model (cin_of (content last)) (world s) = (Some label, w1) →
    label ∈ labels →
    model_invoke model (responder_input label (var_contacts s) (content last)) w1
      = (Some resp, w2) →
    turn labels cin_of st s
      (Ok {| messages :=
               messagesStateReducer (messages (read_input st))
                 (messages (read_input st) ++ [resp]);
             intent := Some label |})
      (logged s w2 [EvGraph st; EvNode "classifier";
                    EvStructured (cin_of (content last));
                    EvNode label;
                    EvInvoke (responder_input label (var_contacts s) (content last))]).

(** The nodes entered, in order, among the events [evs]. *)
Definition nodes_run (evs : list Event) : list string :=
  omap (λ e, match e with EvNode n => Some n | _ => None end) evs.

(** The states the graph was invoked on, in order, among [evs]. *)
Definition graph_inputs (evs : list Event) : list ChatState :=
  omap (λ e, match e with EvGraph st => Some st | _ => None end) evs.

(** The calls to the hosted model among [evs]. *)
Definition is_model_call (e : Event) : bool :=
  match e with EvStructured _ | EvInvoke _ => true | _ => false end.

Definition model_calls (evs : list Event) : list Event :=
  List.filter is_model_call evs.

(** A model that answers every call, and classifies within [labels]. *)
Definition answers (labels : list string) : Prop :=
  (∀ input w, ∃ resp w', model_invoke model input w = (Some resp, w')) ∧
  (∀ input w, ∃ label w', model_structured model input w = (Some label, w')
                          ∧ label ∈ labels).

(** A history as the channel holds it: every message has an id and no
    id occurs twice. *)
Definition clean (ms : list Message) : Prop :=
  Forall (λ m, is_Some (id m)) ms ∧ NoDup (ids ms).

(** [new] is [old] with [m] added at the end and nothing else touched. *)
Definition appended (old new : list Message) (m : Message) : Prop :=
  length new = S (length old) ∧
  (∀ i x, old !! i = Some x → new !! i = Some x) ∧
  new !! length old = Some m.

End Vocabulary.

(** A stand-in for the hosted model: it always classifies as [label] and
    always replies [text], as a message without id; the world counts the
    calls. *)
Definition stub (label text : string) : Model nat :=
  {| model_invoke := λ _ w, (Some {| role := ai; content := text; id := None |}, S w);
     model_structured := λ _ w, (Some label, S w) |}.

(** Another, whose replies all carry the id [reply_id]. *)
Definition stub_with_id (label text reply_id : string) : Model nat :=
  {| model_invoke :=
       λ _ w, (Some {| role := ai; content := text; id := Some reply_id |}, S w);
     model_structured := λ _ w, (Some label, S w) |}.

(** The process at start-up, before any event. *)
Definition boot {W} (w : W) : Sys W :=
  {| world := w; var_contacts := contacts; trace := [] |}.

(** ** The copy with comments

    The same program as a commented listing: the classifier, the three
    persona nodes and the loop read as above, the contact node speaks
    English to the model. *)
Module Commented.
Section Workflow.
Context {W : Type}.
Variable model : Model W.

Definition contact_prompt_head : string :=
"You are a contact assistant.
    Use the contact information provided to answer user questions.
    If a user asks for someone's number, look it up in the list.
    If you can't find it, politely reply " +:+ dq +:+ "contact not found." +:+ dq +:+ "
    If a user asks to add a contact, explain that the add function isn't available yet.
    (Unless it's added later in a database update).
      
  Daftar kontak:
  ".

Definition contact_prompt_tail : string :=
"
      ".

Definition contact_prompt (cs : list Contact) : string :=
  contact_prompt_head +:+ JSON_stringify cs +:+ contact_prompt_tail.

Definition contactNode (state : ChatState) : M W ChatState :=
  let last := last_message state in
  cs <- read_contacts;;
  text <- content_of last;;
  resp <- invoke model
            [ SystemMessage (contact_prompt cs);
              HumanMessage ("Pesan user: " +:+ dq +:+ text +:+ dq) ];;
  ret {| messages := messages state ++ [resp]; intent := intent state |}.

Definition workflow : StateGraph W :=
  new_StateGraph
  |> addNode "classifier" (classifierNode model)
  |> addNode "logical" (logicalNode model)
  |> addNode "emotional" (emotionalNode model)
  |> addNode "general" (generalNode model)
  |> addNode "contact_request" contactNode
  |> addEdge START "classifier"
  |> addConditionalEdges "classifier" route pathMap
  |> addEdge "logical" END
  |> addEdge "emotional" END
  |> addEdge "general" END
  |> addEdge "contact_request" END.

Definition app : Node W := graph_invoke workflow.

Definition main (lines : list string) : M W ChatState :=
  main_loop app lines {| messages := []; intent := None |}.

End Workflow.
End Commented.

(** ** Vocabulary of a whole run *)

(** The texts written by [console.log], in order, among [evs]. *)
Definition printed (evs : list Event) : list string :=
  omap (λ e, match e with EvLog text => Some text | _ => None end) evs.

(** A byte that [JSON.stringify] writes as it is. *)
Definition json_plain (c : ascii) : bool :=
  let n := nat_of_ascii c in
  ((32 <=? n) && negb (n =? 34) && negb (n =? 92))%nat.

Fixpoint all_plain (s : string) : bool :=
  match s with
  | EmptyString => true
  | String c r => json_plain c && all_plain r
  end.

(** * Properties *)

(** ** The last message *)

Lemma last_message_nonempty (st : ChatState) :
  messages st ≠ [] → ∃ last, last_message st = Some last.
Proof.
  intros Hne. unfold last_message.
  apply lookup_lt_is_Some.
  destruct (messages st); [done | simpl; lia].
Qed.

Lemma last_message_empty (st : ChatState) :
  messages st = [] → last_message st = None.
Proof. intros H. unfold last_message. by rewrite H. Qed.

Lemma last_message_is_Some (st : ChatState) last :
  last_message st = Some last → messages st ≠ [].
Proof.
  intros H Hnil. by rewrite (last_message_empty st Hnil) in H.
Qed.

Lemma last_message_snoc (l : list Message) (m : Message) (i : option string) :
  last_message {| messages := l ++ [m]; intent := i |} = Some m.
Proof.
  unfold last_message; simpl.
  apply list_lookup_middle.
  rewrite length_app; simpl; lia.
Qed.

Lemma last_message_last (st : ChatState) : last_message st = last (messages st).
Proof.
  unfold last_message. rewrite last_lookup.
  by replace (length (messages st) - 1) with (pred (length (messages st))) by lia.
Qed.

Lemma appended_snoc (l : list Message) (m : Message) : appended l (l ++ [m]) m.
Proof.
  repeat split.
  - rewrite length_app; simpl; lia.
  - intros i x Hi. by apply lookup_app_l_Some.
  - by apply list_lookup_middle.
Qed.

(** ** The reducer of the messages *)

Section Reducer.
Implicit Types (ms left right merged : list Message) (m : Message).
Implicit Types (x : string) (used : list string).

Lemma ids_cons m ms :
  ids (m :: ms) = match id m with Some x => x :: ids ms | None => ids ms end.
Proof. unfold ids. simpl. by destruct (id m). Qed.

Lemma ids_app ms1 ms2 : ids (ms1 ++ ms2) = ids ms1 ++ ids ms2.
Proof. apply omap_app. Qed.

Lemma find_id_None merged x : find_id merged x = None ↔ x ∉ ids merged.
Proof.
  induction merged as [|m rest IH].
  { split; [intros _ H; by apply elem_of_nil in H | done]. }
  cbn [find_id]. rewrite ids_cons. destruct (find_id rest x) as [i|].
  - split; [done|]. intros Hnot. exfalso.
    assert (x ∉ ids rest) as Hrest.
    { destruct (id m); [by apply not_elem_of_cons in Hnot as [_ ?] | done]. }
    by apply IH in Hrest.
  - destruct IH as [IH _]. specialize (IH eq_refl).
    case_bool_decide as Hid.
    + split; [done|]. rewrite Hid. intros Hnot. exfalso.
      apply Hnot, list_elem_of_here.
    + split; [|done]. intros _. destruct (id m) as [y|]; [|done].
      apply not_elem_of_cons. split; [congruence | done].
Qed.

Lemma find_id_unique merged i m x :
  NoDup (ids merged) → merged !! i = Some m → id m = Some x →
  find_id merged x = Some i.
Proof.
  revert i. induction merged as [|m0 rest IH]; intros i Hdup Hi Hid; [done|].
  rewrite ids_cons in Hdup. destruct i as [|i]; simpl in *.
  - injection Hi as ->. rewrite Hid in Hdup.
    apply NoDup_cons in Hdup as [Hnot _].
    apply find_id_None in Hnot. rewrite Hnot.
    by rewrite bool_decide_eq_true_2.
  - assert (NoDup (ids rest)) as Hrest.
    { destruct (id m0); [by apply NoDup_cons in Hdup as [_ ?] | done]. }
    by rewrite (IH i Hrest Hi Hid).
Qed.

Lemma find_id_lookup merged x i :
  find_id merged x = Some i → ∃ m, merged !! i = Some m ∧ id m = Some x.
Proof.
  revert i. induction merged as [|m0 rest IH]; intros i; [done|]. simpl.
  destruct (find_id rest x) as [j|].
  - intros [= <-]. by apply IH.
  - case_bool_decide; [|done]. intros [= <-]. by exists m0.
Qed.

Lemma ids_insert_same merged i m m0 :
  merged !! i = Some m0 → id m0 = id m → ids (<[i := m]> merged) = ids merged.
Proof.
  revert i. induction merged as [|m1 rest IH]; intros i Hi Hid; [done|].
  destruct i as [|i]; simpl in Hi.
  - injection Hi as ->.
    change (<[0 := m]> (m0 :: rest)) with (m :: rest).
    rewrite !ids_cons. by rewrite Hid.
  - change (<[S i := m]> (m1 :: rest)) with (m1 :: <[i := m]> rest).
    rewrite !ids_cons. by rewrite (IH i Hi Hid).
Qed.

Lemma clean_nil : clean [].
Proof. split; [apply Forall_nil_2 | apply NoDup_nil_2]. Qed.

Lemma merge_one_clean merged m :
  clean merged → is_Some (id m) → clean (merge_one merged m).
Proof.
  intros [Hall Hdup] [x Hx]. unfold merge_one. rewrite Hx.
  destruct (find_id merged x) as [i|] eqn:Hfind.
  - destruct (find_id_lookup merged x i Hfind) as (m0 & Hi & Hid0).
    split.
    + apply Forall_insert; [done | by rewrite Hx].
    + rewrite (ids_insert_same merged i m m0); [done | done | congruence].
  - split.
    + apply Forall_app. split; [done|]. apply Forall_singleton. by rewrite Hx.
    + rewrite ids_app, ids_cons, Hx. simpl.
      apply NoDup_app. split; [done|]. split.
      * intros y Hy [->| H]%elem_of_cons; [|by apply elem_of_nil in H].
        by apply find_id_None in Hfind.
      * apply NoDup_singleton.
Qed.

Lemma foldl_merge_clean right merged :
  clean merged → Forall (λ m, is_Some (id m)) right →
  clean (foldl merge_one merged right).
Proof.
  revert merged. induction right as [|m right IH]; intros merged Hclean Hall; [done|].
  apply Forall_cons in Hall as [Hm Hall]. simpl.
  apply IH; [by apply merge_one_clean | done].
Qed.

Lemma assign_ids_Some used ms : Forall (λ m, is_Some (id m)) (assign_ids used ms).
Proof.
  revert used. induction ms as [|m ms IH]; intros used; simpl; [apply Forall_nil_2|].
  destruct (id m) as [x|] eqn:Hid.
  - apply Forall_cons. split; [by rewrite Hid | apply IH].
  - apply Forall_cons. split; [by eexists | apply IH].
Qed.

Lemma assign_ids_id used ms :
  Forall (λ m, is_Some (id m)) ms → assign_ids used ms = ms.
Proof.
  induction 1 as [|m ms [x Hx] _ IH]; simpl; [done|].
  by rewrite Hx, IH.
Qed.

Lemma assign_ids_app used ms1 ms2 :
  Forall (λ m, is_Some (id m)) ms1 →
  assign_ids used (ms1 ++ ms2) = ms1 ++ assign_ids used ms2.
Proof.
  induction 1 as [|m ms [x Hx] _ IH]; simpl; [done|].
  by rewrite Hx, IH.
Qed.

Lemma assign_ids_length used ms : length (assign_ids used ms) = length ms.
Proof.
  revert used. induction ms as [|m ms IH]; intros used; simpl; [done|].
  destruct (id m); simpl; by rewrite IH.
Qed.

Lemma assign_ids_content used ms :
  content <$> assign_ids used ms = content <$> ms.
Proof.
  revert used. induction ms as [|m ms IH]; intros used; simpl; [done|].
  destruct (id m); simpl; by rewrite IH.
Qed.

(** New ids differ from the ids in use and from each other. *)
Lemma assign_ids_NoDup used ms :
  NoDup (ids ms) → (∀ x, x ∈ ids ms → x ∈ used) →
  NoDup (ids (assign_ids used ms)) ∧
  ∀ x, x ∈ ids (assign_ids used ms) → x ∈ ids ms ∨ x ∉ used.
Proof.
  revert used. induction ms as [|m ms IH]; intros used Hdup Hused.
  { split; [apply NoDup_nil_2 | by intros x ?%elem_of_nil]. }
  rewrite ids_cons in Hdup, Hused. rewrite (ids_cons m ms). cbn [assign_ids].
  destruct (id m) as [y|] eqn:Hid.
  - apply NoDup_cons in Hdup as [Hy Hdup].
    destruct (IH used Hdup) as [IHdup IHin].
    { intros x Hx. apply Hused. by apply list_elem_of_further. }
    rewrite ids_cons, Hid. split.
    + apply NoDup_cons. split; [|done].
      intros [Hin | Hnot]%IHin; [done|].
      apply Hnot, Hused, list_elem_of_here.
    + intros x [-> | Hx]%elem_of_cons; [left; apply list_elem_of_here|].
      destruct (IHin x Hx) as [? | ?]; [left; by apply list_elem_of_further | by right].
  - pose proof (infinite_is_fresh used) as Hfresh. fold (uuid used) in Hfresh.
    destruct (IH (uuid used :: used) Hdup) as [IHdup IHin].
    { intros x Hx. by apply list_elem_of_further, Hused. }
    cbv zeta. rewrite ids_cons. cbn [id]. split.
    + apply NoDup_cons. split; [|done].
      intros [Hin | Hnot]%IHin; [by apply Hfresh, Hused|].
      apply Hnot, list_elem_of_here.
    + intros x [-> | Hx]%elem_of_cons; [by right|].
      destruct (IHin x Hx) as [? | Hnot]; [by left|].
      right. intros Hin. by apply Hnot, list_elem_of_further.
Qed.

Lemma assign_ids_clean ms : NoDup (ids ms) → clean (assign_ids (ids ms) ms).
Proof.
  intros Hdup. split; [apply assign_ids_Some|].
  by apply assign_ids_NoDup.
Qed.

Lemma merge_one_length merged m : length merged ≤ length (merge_one merged m).
Proof.
  unfold merge_one. destruct (id m) as [x|]; [destruct (find_id merged x)|];
    rewrite ?length_insert, ?length_app; simpl; lia.
Qed.

Lemma foldl_merge_length right merged :
  length merged ≤ length (foldl merge_one merged right).
Proof.
  revert merged. induction right as [|m right IH]; intros merged; simpl; [done|].
  etrans; [apply (merge_one_length merged m) | apply IH].
Qed.

Lemma merge_one_nonempty merged m : merge_one merged m ≠ [].
Proof.
  unfold merge_one. destruct (id m) as [x|].
  - destruct (find_id merged x) as [i|] eqn:Hfind.
    + destruct (find_id_lookup merged x i Hfind) as (m0 & Hi & _).
      destruct merged; [done|]. by destruct i.
    + by destruct merged.
  - by destruct merged.
Qed.

Lemma foldl_merge_nonempty right merged :
  merged ≠ [] ∨ right ≠ [] → foldl merge_one merged right ≠ [].
Proof.
  intros Hne Hnil.
  destruct right as [|m right].
  - destruct Hne as [? | ?]; done.
  - simpl in Hnil.
    pose proof (foldl_merge_length right (merge_one merged m)) as Hlen.
    rewrite Hnil in Hlen.
    pose proof (merge_one_nonempty merged m) as Hone.
    destruct (merge_one merged m); [done | simpl in Hlen; lia].
Qed.

Lemma reducer_nonempty left right :
  left ≠ [] ∨ right ≠ [] → messagesStateReducer left right ≠ [].
Proof.
  unfold messagesStateReducer. intros Hne.
  apply foldl_merge_nonempty.
  destruct Hne as [Hleft | Hright]; [left | right];
    intros Hnil%(f_equal length); rewrite assign_ids_length in Hnil;
    by apply length_zero_iff_nil in Hnil.
Qed.

Lemma reducer_clean left right :
  clean left → clean (messagesStateReducer left right).
Proof.
  intros Hclean. unfold messagesStateReducer.
  rewrite (assign_ids_id _ left) by apply Hclean.
  apply foldl_merge_clean; [done | apply assign_ids_Some].
Qed.

(** Merging a clean list into itself changes nothing. *)
Lemma foldl_merge_self l seen rest :
  clean l → l = seen ++ rest → foldl merge_one l rest = l.
Proof.
  intros [Hall Hdup]. revert seen.
  induction rest as [|m rest IH]; intros seen Hl; [done|]. simpl.
  assert (l !! length seen = Some m) as Hm by (rewrite Hl; by apply list_lookup_middle).
  assert (is_Some (id m)) as [x Hx].
  { eapply Forall_lookup_1 in Hall; [exact Hall | exact Hm]. }
  unfold merge_one at 2. rewrite Hx.
  rewrite (find_id_unique l (length seen) m x Hdup Hm Hx).
  rewrite list_insert_id by done.
  apply (IH (seen ++ [m])). by rewrite <- app_assoc.
Qed.

Lemma reducer_self l : clean l → messagesStateReducer l l = l.
Proof.
  intros Hclean. unfold messagesStateReducer.
  rewrite !(assign_ids_id _ l) by apply Hclean.
  by apply (foldl_merge_self l []).
Qed.

(** The reply as the reducer sees it: with a new id if it has none. *)
Lemma reducer_snoc l resp :
  clean l →
  messagesStateReducer l (l ++ [resp]) =
    merge_one l
      (match id resp with
       | Some _ => resp
       | None => {| role := role resp; content := content resp;
                    id := Some (uuid (ids l ++ ids l)) |}
       end).
Proof.
  intros Hclean. unfold messagesStateReducer.
  rewrite (assign_ids_id _ l) by apply Hclean.
  rewrite assign_ids_app by apply Hclean.
  rewrite foldl_app, (foldl_merge_self l [] l Hclean eq_refl).
  rewrite ids_app, ids_cons. simpl.
  destruct (id resp); simpl; [done|]. by rewrite app_nil_r.
Qed.

(** Pushing clean messages onto a list they are new to appends them. *)
Lemma foldl_merge_fresh ms acc :
  clean (acc ++ ms) → foldl merge_one acc ms = acc ++ ms.
Proof.
  revert acc. induction ms as [|m ms IH]; intros acc Hclean; simpl.
  { by rewrite app_nil_r. }
  destruct Hclean as [Hall Hdup].
  assert (is_Some (id m)) as [x Hx].
  { apply Forall_app in Hall as [_ Hall]. by apply Forall_cons in Hall as [? _]. }
  assert (x ∉ ids acc) as Hnew.
  { rewrite ids_app, ids_cons, Hx in Hdup.
    apply NoDup_app in Hdup as (_ & Hdisj & _).
    intros Hin. apply (Hdisj x Hin), list_elem_of_here. }
  unfold merge_one at 2. rewrite Hx.
  apply find_id_None in Hnew. rewrite Hnew.
  rewrite IH; rewrite <- app_assoc; [done|]. by split.
Qed.

(** Read into empty channels, a list whose ids are distinct keeps its
    messages in place, each without id being given one. *)
Lemma reducer_input ms :
  NoDup (ids ms) → messagesStateReducer [] ms = assign_ids (ids ms) ms.
Proof.
  intros Hdup. unfold messagesStateReducer. simpl.
  by apply (foldl_merge_fresh _ []), assign_ids_clean.
Qed.

Lemma read_input_nonempty (st : ChatState) :
  messages st ≠ [] → messages (read_input st) ≠ [].
Proof. intros Hne. simpl. apply reducer_nonempty. by right. Qed.

Lemma read_input_empty (st : ChatState) :
  messages st = [] → messages (read_input st) = [].
Proof. intros Hnil. simpl. by rewrite Hnil. Qed.

Lemma read_input_clean (st : ChatState) : clean (messages (read_input st)).
Proof. apply reducer_clean, clean_nil. Qed.

Lemma read_input_last_content (st : ChatState) :
  NoDup (ids (messages st)) →
  content <$> last_message (read_input st) = content <$> last_message st.
Proof.
  intros Hdup. rewrite !last_message_last. simpl.
  rewrite (reducer_input _ Hdup), <- !fmap_last.
  by rewrite assign_ids_content.
Qed.

(** The line the loop pushes is the last message the nodes read. *)
Lemma read_input_pushed (h : list Message) (i : option string) (line : string) :
  clean h →
  messages (read_input {| messages := h ++ [HumanMessage line]; intent := i |}) =
    h ++ [{| role := human; content := line; id := Some (uuid (ids h)) |}].
Proof.
  intros Hclean. simpl.
  assert (ids (h ++ [HumanMessage line]) = ids h) as Hids.
  { rewrite ids_app. simpl. apply app_nil_r. }
  rewrite reducer_input; rewrite Hids; [|apply Hclean].
  by rewrite assign_ids_app by apply Hclean.
Qed.

End Reducer.

(** ** Bookkeeping of the process state *)

Section Bookkeeping.
Context {W : Type}.
Implicit Types (s : Sys W) (w : W) (evs : list Event).

Lemma logged_logged s w evs w' evs' :
  logged (logged s w evs) w' evs' = logged s w' (evs ++ evs').
Proof. unfold logged; simpl. by rewrite app_assoc. Qed.

Lemma log_run (e : Event) s : log e s = (Ok (), logged s (world s) [e]).
Proof. reflexivity. Qed.

Lemma logged_world s w evs : world (logged s w evs) = w.
Proof. reflexivity. Qed.

Lemma logged_contacts s w evs : var_contacts (logged s w evs) = var_contacts s.
Proof. reflexivity. Qed.

Lemma logged_trace s w evs : trace (logged s w evs) = trace s ++ evs.
Proof. reflexivity. Qed.

End Bookkeeping.

(** Bring the process state under the goal to the form [logged s w evs]. *)
Ltac tidy :=
  repeat rewrite logged_logged;
  repeat rewrite logged_world;
  repeat rewrite logged_contacts;
  simpl app.

(** ** The nodes, one call each *)

Section NodeFacts.
Context {W : Type}.
Variable model : Model W.

Lemma responder_input_logical cs text :
  responder_input "logical" cs text =
    [SystemMessage logical_prompt; HumanMessage ("Message: " +:+ dq +:+ text +:+ dq)].
Proof. reflexivity. Qed.

Lemma responder_input_emotional cs text :
  responder_input "emotional" cs text =
    [SystemMessage emotional_prompt; HumanMessage ("Message: " +:+ dq +:+ text +:+ dq)].
Proof. reflexivity. Qed.

Lemma responder_input_general cs text :
  responder_input "general" cs text =
    [SystemMessage general_prompt; HumanMessage ("Message: " +:+ dq +:+ text +:+ dq)].
Proof. reflexivity. Qed.

Lemma responder_input_contact cs text :
  responder_input "contact_request" cs text =
    [SystemMessage (contact_prompt cs);
     HumanMessage ("Pesan user: " +:+ dq +:+ text +:+ dq)].
Proof. reflexivity. Qed.

(** Run a node symbolically: case on the last message, then on what the
    model returns. *)
Ltac run_node :=
  intros st s;
  unfold bind, content_of, read_contacts, invoke, withStructuredOutput_invoke,
    ret, throw;
  destruct (last_message st) as [last|]; [cbv zeta | reflexivity];
  rewrite ?responder_input_logical, ?responder_input_emotional,
    ?responder_input_general, ?responder_input_contact;
  unfold classifier_input, basic_classifier_input; simpl;
  repeat match goal with
  | |- context [model_invoke ?m ?i ?w] => destruct (model_invoke m i w) as [[?|] ?]
  | |- context [model_structured ?m ?i ?w] => destruct (model_structured m i w) as [[?|] ?]
  | |- context [bool_decide ?P] => destruct (bool_decide P)
  end; reflexivity.

Lemma logicalNode_responds :
  responds_with model (logicalNode model) (responder_input "logical").
Proof. unfold logicalNode. run_node. Qed.

Lemma emotionalNode_responds :
  responds_with model (emotionalNode model) (responder_input "emotional").
Proof. unfold emotionalNode. run_node. Qed.

Lemma generalNode_responds :
  responds_with model (generalNode model) (responder_input "general").
Proof. unfold generalNode. run_node. Qed.

Lemma contactNode_responds :
  responds_with model (contactNode model) (responder_input "contact_request").
Proof. unfold contactNode. run_node. Qed.

Lemma classifierNode_classifies :
  classifies_with model (classifierNode model) intent_labels classifier_input.
Proof. unfold classifierNode. run_node. Qed.

Lemma basic_classifierNode_classifies :
  classifies_with model (Basic.classifierNode model) Basic.intent_labels
    basic_classifier_input.
Proof. unfold Basic.classifierNode. run_node. Qed.

Lemma responders_respond (name : string) (node : Node W) :
  (name, node) ∈ responders model → responds_with model node (responder_input name).
Proof.
  unfold responders. intros H.
  repeat (apply elem_of_cons in H as [H | H]; [inversion H; subst |]).
  - apply logicalNode_responds.
  - apply emotionalNode_responds.
  - apply generalNode_responds.
  - apply contactNode_responds.
  - by apply elem_of_nil in H.
Qed.

End NodeFacts.

(** ** One invocation of the graph *)

Section GraphFacts.
Context {W : Type}.
Variable model : Model W.
Implicit Types (g : StateGraph W) (st : ChatState) (s : Sys W).

Lemma run_from_END g fuel st s : run_from g fuel END st s = (Ok st, s).
Proof. by destruct fuel. Qed.

Lemma run_from_step g fuel cur action st s :
  cur ≠ END →
  nodes g !! cur = Some action →
  run_from g (S fuel) cur st s =
    match action st (logged s (world s) [EvNode cur]) with
    | (Ok update, s') =>
        match next_node g cur (apply_update st update) s' with
        | (Ok next, s'') => run_from g fuel next (apply_update st update) s''
        | (Throw e, s'') => (Throw e, s'')
        end
    | (Throw e, s') => (Throw e, s')
    end.
Proof.
  intros Hcur Hnode. cbn [run_from].
  rewrite bool_decide_eq_false_2 by done.
  destruct (nodes g !! cur) as [action'|]; [|done].
  injection Hnode as ->. unfold bind. rewrite log_run.
  destruct (action st _) as [[update|e] s']; [|done].
  cbv zeta.
  by destruct (next_node g cur (apply_update st update) s') as [[next|e] s''].
Qed.

Lemma apply_update_label (st : ChatState) (label : string) :
  clean (messages st) →
  apply_update st {| messages := messages st; intent := Some label |} =
    {| messages := messages st; intent := Some label |}.
Proof. intros Hclean. unfold apply_update. simpl. by rewrite reducer_self. Qed.

Lemma wired_run g cls labels cin_of st s r s' :
  wired model g cls labels cin_of →
  graph_invoke g st s = (r, s') →
  turn model labels cin_of st s r s'.
Proof.
  intros [Hstart Hcls Hclassify Hbranch Hresp].
  unfold graph_invoke, bind. rewrite log_run. cbv zeta. rewrite Hstart. unfold ret.
  change recursionLimit with (S 24).
  rewrite (run_from_step g _ "classifier" cls) by done.
  rewrite Hclassify. tidy.
  destruct (last_message (read_input st)) as [last|] eqn:Hlast.
  2:{ intros [= <- <-]. apply turn_empty.
      destruct (messages st) eqn:Hm; [done|].
      destruct (last_message_nonempty (read_input st)) as [? ?]; [|congruence].
      apply read_input_nonempty. by rewrite Hm. }
  cbv zeta. tidy.
  destruct (model_structured model (cin_of (content last)) (world s))
    as [[label|] w1] eqn:Hcall; tidy.
  2:{ intros [= <- <-]. by eapply turn_rejected. }
  case_bool_decide as Hlabel; tidy.
  2:{ intros [= <- <-]. by eapply turn_unparsed. }
  rewrite (apply_update_label (read_input st) label) by apply read_input_clean.
  rewrite (Hbranch {| messages := messages (read_input st); intent := Some label |}
             label) by done.
  unfold ret.
  destruct (Hresp label Hlabel) as (HnotEnd & node & Hnode & Hresponds & Hend).
  rewrite (run_from_step g _ label node) by done.
  rewrite Hresponds. tidy.
  change (last_message
            {| messages := messages (read_input st); intent := Some label |})
    with (last_message (read_input st)).
  rewrite Hlast. cbv zeta. tidy.
  destruct (model_invoke model
              (responder_input label (var_contacts s) (content last)) w1)
    as [[resp|] w2] eqn:Hanswer; tidy.
  2:{ intros [= <- <-]. by eapply turn_unanswered. }
  rewrite Hend. unfold ret. rewrite run_from_END.
  intros [= <- <-]. by eapply turn_answered.
Qed.

Lemma workflow_wired :
  wired model (workflow model) (classifierNode model) intent_labels classifier_input.
Proof.
  split.
  - reflexivity.
  - reflexivity.
  - apply classifierNode_classifies.
  - intros st label Hlabel Hintent. unfold intent_labels in Hlabel.
    unfold next_node. change (edges (workflow model) !! "classifier") with (@None string).
    change (branches (workflow model) !! "classifier") with (Some (route, pathMap)).
    unfold route. rewrite Hintent. cbn [default from_option].
    repeat (apply elem_of_cons in Hlabel as [-> | Hlabel]; [reflexivity|]).
    by apply elem_of_nil in Hlabel.
  - intros label Hlabel. unfold intent_labels in Hlabel.
    repeat (apply elem_of_cons in Hlabel as [-> | Hlabel];
            [split; [done|]; eexists; split; [reflexivity|]; split |]).
    + apply emotionalNode_responds.
    + reflexivity.
    + apply logicalNode_responds.
    + reflexivity.
    + apply generalNode_responds.
    + reflexivity.
    + apply contactNode_responds.
    + reflexivity.
    + by apply elem_of_nil in Hlabel.
Qed.

Lemma basic_workflow_wired :
  wired model (Basic.workflow model) (Basic.classifierNode model) Basic.intent_labels
    basic_classifier_input.
Proof.
  split.
  - reflexivity.
  - reflexivity.
  - apply basic_classifierNode_classifies.
  - intros st label Hlabel Hintent. unfold Basic.intent_labels in Hlabel.
    unfold next_node.
    change (edges (Basic.workflow model) !! "classifier") with (@None string).
    change (branches (Basic.workflow model) !! "classifier")
      with (Some (route, Basic.pathMap)).
    unfold route. rewrite Hintent. cbn [default from_option].
    repeat (apply elem_of_cons in Hlabel as [-> | Hlabel]; [reflexivity|]).
    by apply elem_of_nil in Hlabel.
  - intros label Hlabel. unfold Basic.intent_labels in Hlabel.
    repeat (apply elem_of_cons in Hlabel as [-> | Hlabel];
            [split; [done|]; eexists; split; [reflexivity|]; split |]).
    + apply emotionalNode_responds.
    + reflexivity.
    + apply logicalNode_responds.
    + reflexivity.
    + apply generalNode_responds.
    + reflexivity.
    + by apply elem_of_nil in Hlabel.
Qed.

End GraphFacts.

(** ** The routing table *)

Section Routing.
Context {W : Type}.
Variable model : Model W.

Lemma next_after_classifier (st : ChatState) :
  next_node (workflow model) "classifier" st =
    match js_get pathMap (route st) with
    | Some (JsString target) => ret target
    | Some JsInherited => ret END
    | None => throw (GraphError "Branch condition returned unknown or null destination")
    end.
Proof. reflexivity. Qed.

Lemma basic_next_after_classifier (st : ChatState) :
  next_node (Basic.workflow model) "classifier" st =
    match js_get Basic.pathMap (route st) with
    | Some (JsString target) => ret target
    | Some JsInherited => ret END
    | None => throw (GraphError "Branch condition returned unknown or null destination")
    end.
Proof. reflexivity. Qed.

Lemma pathMap_same (label : string) :
  label ∈ intent_labels → js_get pathMap label = Some (JsString label).
Proof.
  unfold intent_labels. intros H.
  repeat (apply elem_of_cons in H as [-> | H]; [reflexivity|]).
  by apply elem_of_nil in H.
Qed.

Lemma basic_pathMap_same (label : string) :
  label ∈ Basic.intent_labels → js_get Basic.pathMap label = Some (JsString label).
Proof.
  unfold Basic.intent_labels. intros H.
  repeat (apply elem_of_cons in H as [-> | H]; [reflexivity|]).
  by apply elem_of_nil in H.
Qed.

Lemma basic_pathMap_other (label : string) :
  label ∉ Basic.intent_labels →
  js_get Basic.pathMap label =
    if bool_decide (label ∈ Object_prototype) then Some JsInherited else None.
Proof.
  intros Hnot. unfold js_get.
  assert (Basic.pathMap !! label = None) as ->; [|done].
  apply not_elem_of_list_to_map_1. simpl.
  intros Hin. apply Hnot. unfold Basic.intent_labels.
  rewrite !elem_of_cons, elem_of_nil in Hin.
  rewrite !elem_of_cons, elem_of_nil. tauto.
Qed.

Lemma responder_of_label (label : string) :
  label ∈ intent_labels →
  ∃ node, (label, node) ∈ responders model ∧ nodes (workflow model) !! label = Some node.
Proof.
  unfold intent_labels, responders. intros H.
  repeat (apply elem_of_cons in H as [-> | H];
          [eexists; split; [|reflexivity]; repeat constructor|]).
  by apply elem_of_nil in H.
Qed.

End Routing.

(** X12: the routing table of the three-label variant. Each of its
    three labels is sent to the responder of the same name and a missing
    label to "logical". Any other label, the label "contact_request" of
    the other variant included, selects no responder: the runtime raises
    its unknown-destination error, except for the names that
    [Object.prototype] defines (constructor, toString, __proto__ and the
    like), which the lookup finds as inherited members, so that nothing
    is raised and the run ends there. *)
Lemma basic_routing_table {W} (model : Model W) :
  (∀ st label, label ∈ Basic.intent_labels → intent st = Some label →
     Basic.dispatch st = Some label) ∧
  (∀ st, intent st = None → Basic.dispatch st = Some "logical") ∧
  (∀ st label, intent st = Some label → label ∉ Basic.intent_labels →
     Basic.dispatch st = None ∧
     next_node (Basic.workflow model) "classifier" st =
       if bool_decide (label ∈ Object_prototype) then ret END
       else throw (GraphError "Branch condition returned unknown or null destination")).
Proof.
  split; [|split].
  - intros st label Hin Hintent. unfold Basic.dispatch, route. rewrite Hintent.
    change (default "logical" (Some label)) with label.
    by rewrite basic_pathMap_same.
  - intros st Hintent. unfold Basic.dispatch, route. by rewrite Hintent.
  - intros st label Hintent Hnot.
    rewrite basic_next_after_classifier. unfold Basic.dispatch, route.
    rewrite Hintent. change (default "logical" (Some label)) with label.
    rewrite (basic_pathMap_other label Hnot). by case_bool_decide.
Qed.

(** C1, as stated, fails: a label outside the enumeration is not sent to
    "logical". The selector [state.intent ?? "logical"] replaces only
    [undefined]; it hands the label "billing" on as it is, the routing
    table yields nothing for it, and instead of a responder being
    selected the runtime raises an error. *)
Lemma unrecognized_label_not_defaulted :
  let st := {| messages := [HumanMessage "Halo"]; intent := Some "billing" |} in
  ("billing" ∉ intent_labels) ∧
  route st = "billing" ∧
  dispatch st = None ∧
  dispatch st ≠ Some "logical" ∧
  next_node (workflow (stub "general" "Hello!")) "classifier" st (boot 0) =
    (Throw (GraphError "Branch condition returned unknown or null destination"),
     boot 0).
Proof.
  simpl. split; [|split; [|split; [|split]]].
  - compute_done.
  - reflexivity.
  - reflexivity.
  - discriminate.
  - reflexivity.
Qed.

(** C1, amended: for every label of the enumeration (emotional, logical,
    general, contact_request) the dispatcher run after the classifier
    selects the responder node registered under the same name, and a
    missing ([undefined]) label is routed to the default responder
    "logical". The default stands in for a missing label only: a label
    that is there, recognized or not, is handed on by the selector as it
    is. *)
Theorem dispatch_routes {W} (model : Model W) :
  (∀ st label, label ∈ intent_labels → intent st = Some label →
     dispatch st = Some label ∧
     next_node (workflow model) "classifier" st = ret label ∧
     ∃ node, (label, node) ∈ responders model ∧
             nodes (workflow model) !! label = Some node) ∧
  (∀ st, intent st = None →
     dispatch st = Some "logical" ∧
     next_node (workflow model) "classifier" st = ret "logical" ∧
     nodes (workflow model) !! "logical" = Some (logicalNode model)) ∧
  (∀ st label, intent st = Some label → route st = label).
Proof.
  split; [|split].
  - intros st label Hin Hintent.
    assert (js_get pathMap (route st) = Some (JsString label)) as Hget.
    { unfold route. rewrite Hintent. by apply pathMap_same. }
    split; [by unfold dispatch; rewrite Hget|]. split.
    + by rewrite next_after_classifier, Hget.
    + by apply responder_of_label.
  - intros st Hintent.
    assert (js_get pathMap (route st) = Some (JsString "logical")) as Hget.
    { unfold route. by rewrite Hintent. }
    split; [by unfold dispatch; rewrite Hget|]. split; [|reflexivity].
    by rewrite next_after_classifier, Hget.
  - intros st label Hintent. unfold route. by rewrite Hintent.
Qed.

Lemma dispatch_routes_witness :
  dispatch {| messages := [HumanMessage "Apa nomor Andi?"];
              intent := Some "contact_request" |} = Some "contact_request" ∧
  dispatch {| messages := [HumanMessage "Halo"]; intent := None |} = Some "logical" ∧
  route {| messages := [HumanMessage "Halo"]; intent := Some "billing" |} = "billing".
Proof.
  destruct (dispatch_routes (stub "general" "Hello!")) as (Hlabel & Hmissing & Hother).
  split; [|split].
  - apply (Hlabel _ "contact_request"); [compute_done | reflexivity].
  - apply Hmissing. reflexivity.
  - apply (Hother _ "billing"). reflexivity.
Defined.

(** ** What a node changes *)

Section NodeEffects.
Context {W : Type}.
Variable model : Model W.
Implicit Types (st : ChatState) (s : Sys W) (node : Node W).

Lemma responds_reply node input_of st s last :
  responds_with model node input_of →
  last_message st = Some last →
  let input := input_of (var_contacts s) (content last) in
  trace (node st s).2 = trace s ++ [EvInvoke input] ∧
  var_contacts (node st s).2 = var_contacts s ∧
  world (node st s).2 = (model_invoke model input (world s)).2 ∧
  (node st s).1 =
    match (model_invoke model input (world s)).1 with
    | Some reply => Ok {| messages := messages st ++ [reply]; intent := intent st |}
    | None => Throw ModelError
    end.
Proof.
  intros Hnode Hlast. rewrite Hnode, Hlast. cbv zeta.
  by destruct (model_invoke model _ (world s)) as [[reply|] w].
Qed.

Lemma responds_empty node input_of st s :
  responds_with model node input_of →
  messages st = [] → node st s = (Throw TypeError, s).
Proof.
  intros Hnode Hnil. by rewrite Hnode, (last_message_empty st Hnil).
Qed.

Lemma classifies_label node labels input_of st s last :
  classifies_with model node labels input_of →
  last_message st = Some last →
  let input := input_of (content last) in
  trace (node st s).2 = trace s ++ [EvStructured input] ∧
  var_contacts (node st s).2 = var_contacts s ∧
  world (node st s).2 = (model_structured model input (world s)).2 ∧
  (node st s).1 =
    match (model_structured model input (world s)).1 with
    | Some raw => if bool_decide (raw ∈ labels)
                  then Ok {| messages := messages st; intent := Some raw |}
                  else Throw SchemaError
    | None => Throw ModelError
    end.
Proof.
  intros Hnode Hlast. rewrite Hnode, Hlast. cbv zeta.
  destruct (model_structured model _ (world s)) as [[raw|] w]; [|done].
  simpl. by case_bool_decide.
Qed.

Lemma classifies_empty node labels input_of st s :
  classifies_with model node labels input_of →
  messages st = [] → node st s = (Throw TypeError, s).
Proof.
  intros Hnode Hnil. by rewrite Hnode, (last_message_empty st Hnil).
Qed.

(** Whatever it returns, a classifier has kept the messages and stored a
    label of its schema. *)
Lemma classifies_result node labels input_of st s st' :
  classifies_with model node labels input_of →
  (node st s).1 = Ok st' →
  messages st' = messages st ∧ ∃ label, intent st' = Some label ∧ label ∈ labels.
Proof.
  intros Hnode. rewrite Hnode.
  destruct (last_message st) as [last|]; [cbv zeta | done].
  destruct (model_structured model _ (world s)) as [[raw|] w]; [|done].
  case_bool_decide; [|done].
  intros [= <-]. eauto.
Qed.

End NodeEffects.

(** C5: every responder node (logical, emotional, general,
    contact_request), run on a state with a last message, makes one call
    to the model, and given the model's reply it returns the state with
    exactly that reply appended to the message list and the intent label
    (the only other field) unchanged; it returns nothing else. *)
Theorem responder_appends_reply {W} (model : Model W)
    (name : string) (node : Node W) (st : ChatState) (s : Sys W) :
  (name, node) ∈ responders model →
  messages st ≠ [] →
  ∃ input,
    trace (node st s).2 = trace s ++ [EvInvoke input] ∧
    (∀ reply w, model_invoke model input (world s) = (Some reply, w) →
       node st s =
         (Ok {| messages := messages st ++ [reply]; intent := intent st |},
          logged s w [EvInvoke input])) ∧
    (∀ st', (node st s).1 = Ok st' →
       ∃ reply w, model_invoke model input (world s) = (Some reply, w) ∧
                  st' = {| messages := messages st ++ [reply]; intent := intent st |}).
Proof.
  intros Hin Hne.
  destruct (last_message_nonempty st Hne) as [last Hlast].
  pose proof (responders_respond model name node Hin) as Hnode.
  exists (responder_input name (var_contacts s) (content last)).
  split; [|split].
  - by apply (responds_reply model node _ st s last Hnode).
  - intros reply w Hcall. rewrite Hnode, Hlast. cbv zeta. by rewrite Hcall.
  - intros st'. rewrite Hnode, Hlast. cbv zeta.
    destruct (model_invoke model _ (world s)) as [[reply|] w]; [|done].
    intros [= <-]. by exists reply, w.
Qed.

Lemma responder_appends_reply_witness :
  generalNode (stub "general" "Hello!")
    {| messages := [HumanMessage "Halo"]; intent := Some "general" |} (boot 0) =
  (Ok {| messages := [HumanMessage "Halo"; {| role := ai; content := "Hello!"; id := None |}];
         intent := Some "general" |},
   logged (boot 0) 1
     [EvInvoke [SystemMessage general_prompt;
                HumanMessage ("Message: " +:+ dq +:+ "Halo" +:+ dq)]]).
Proof.
  destruct (responder_appends_reply (stub "general" "Hello!") "general"
              (generalNode (stub "general" "Hello!"))
              {| messages := [HumanMessage "Halo"]; intent := Some "general" |}
              (boot 0)) as (input & Htrace & Hreply & _).
  - unfold responders. repeat constructor.
  - simpl. discriminate.
  - injection Htrace as <-. apply (Hreply _ 1). reflexivity.
Defined.

(** C6: the classifier node, run on a state with a last message, makes
    one structured call, and given the label that call returns it gives
    back the state with the intent overwritten by that label and the
    message list (the only other field) as it was; whenever it returns,
    the stored label is a member of the enumeration of the schema. *)
Theorem classifier_overwrites_intent {W} (model : Model W)
    (st : ChatState) (s : Sys W) :
  messages st ≠ [] →
  ∃ input,
    trace (classifierNode model st s).2 = trace s ++ [EvStructured input] ∧
    (∀ label w, model_structured model input (world s) = (Some label, w) →
       label ∈ intent_labels →
       classifierNode model st s =
         (Ok {| messages := messages st; intent := Some label |},
          logged s w [EvStructured input])) ∧
    (∀ st', (classifierNode model st s).1 = Ok st' →
       messages st' = messages st ∧
       ∃ label, intent st' = Some label ∧ label ∈ intent_labels).
Proof.
  intros Hne.
  destruct (last_message_nonempty st Hne) as [last Hlast].
  pose proof (classifierNode_classifies model) as Hnode.
  exists (classifier_input (content last)). split; [|split].
  - by apply (classifies_label model _ _ _ st s last Hnode).
  - intros label w Hcall Hlabel. rewrite Hnode, Hlast. cbv zeta.
    rewrite Hcall. by rewrite bool_decide_eq_true_2.
  - intros st'. by apply (classifies_result model _ _ classifier_input).
Qed.

Lemma classifier_overwrites_intent_witness :
  classifierNode (stub "general" "Hello!")
    {| messages := [HumanMessage "Halo"]; intent := None |} (boot 0) =
  (Ok {| messages := [HumanMessage "Halo"]; intent := Some "general" |},
   logged (boot 0) 1 [EvStructured (classifier_input "Halo")]).
Proof.
  destruct (classifier_overwrites_intent (stub "general" "Hello!")
              {| messages := [HumanMessage "Halo"]; intent := None |} (boot 0))
    as (input & Htrace & Hlabel & _).
  - simpl. discriminate.
  - injection Htrace as <-. apply (Hlabel _ 1); [reflexivity | compute_done].
Defined.

(** X13: the classifier of the three-label variant, run on a state with
    a last message, makes one structured call; given a label of its
    three-label schema it returns the state with the intent overwritten
    by that label and the messages as they were; whenever it returns, the
    stored label is one of the three. *)
Lemma basic_classifier_frame {W} (model : Model W)
    (st : ChatState) (s : Sys W) :
  messages st ≠ [] →
  ∃ input,
    trace (Basic.classifierNode model st s).2 = trace s ++ [EvStructured input] ∧
    (∀ label w, model_structured model input (world s) = (Some label, w) →
       label ∈ Basic.intent_labels →
       Basic.classifierNode model st s =
         (Ok {| messages := messages st; intent := Some label |},
          logged s w [EvStructured input])) ∧
    (∀ st', (Basic.classifierNode model st s).1 = Ok st' →
       messages st' = messages st ∧
       ∃ label, intent st' = Some label ∧ label ∈ Basic.intent_labels).
Proof.
  intros Hne.
  destruct (last_message_nonempty st Hne) as [last Hlast].
  pose proof (basic_classifierNode_classifies model) as Hnode.
  exists (basic_classifier_input (content last)). split; [|split].
  - by apply (classifies_label model _ _ _ st s last Hnode).
  - intros label w Hcall Hlabel. rewrite Hnode, Hlast. cbv zeta.
    rewrite Hcall. by rewrite bool_decide_eq_true_2.
  - intros st'. by apply (classifies_result model _ _ basic_classifier_input).
Qed.

(** ** What a node reads *)

Section NodeReads.
Context {W : Type}.
Variable model : Model W.
Implicit Types (st : ChatState) (s : Sys W) (node : Node W).

Lemma responds_same node input_of st1 st2 s :
  responds_with model node input_of →
  content <$> last_message st1 = content <$> last_message st2 →
  (node st1 s).2 = (node st2 s).2 ∧
  match (node st1 s).1, (node st2 s).1 with
  | Ok a, Ok b =>
      ∃ reply, messages a = messages st1 ++ [reply]
               ∧ messages b = messages st2 ++ [reply]
  | Throw e1, Throw e2 => e1 = e2
  | _, _ => False
  end.
Proof.
  intros Hnode Hsame. rewrite !Hnode.
  destruct (last_message st1) as [l1|], (last_message st2) as [l2|];
    simpl in Hsame; try discriminate; [|done].
  injection Hsame as ->. cbv zeta.
  destruct (model_invoke model _ (world s)) as [[reply|] w]; simpl; eauto.
Qed.

Lemma classifies_same node labels input_of st1 st2 s :
  classifies_with model node labels input_of →
  content <$> last_message st1 = content <$> last_message st2 →
  (node st1 s).2 = (node st2 s).2 ∧
  match (node st1 s).1, (node st2 s).1 with
  | Ok a, Ok b => intent a = intent b
  | Throw e1, Throw e2 => e1 = e2
  | _, _ => False
  end.
Proof.
  intros Hnode Hsame. rewrite !Hnode.
  destruct (last_message st1) as [l1|], (last_message st2) as [l2|];
    simpl in Hsame; try discriminate; [|done].
  injection Hsame as ->. cbv zeta.
  destruct (model_structured model _ (world s)) as [[raw|] w]; [|done].
  by case_bool_decide.
Qed.

End NodeReads.

(** C9: the classifier and every responder read nothing of the history
    but the content of the last message. Run from the same state of the
    process on two states whose last messages have the same content, a
    node leaves the same process state behind (the same input sent to the
    model, recorded in the trace, and the same world), and with the same
    reply the classifier stores the same label and a responder appends
    the same message; if one run throws, the other throws the same. *)
Theorem nodes_read_last_message_only {W} (model : Model W) :
  (∀ st1 st2 s,
     content <$> last_message st1 = content <$> last_message st2 →
     (classifierNode model st1 s).2 = (classifierNode model st2 s).2 ∧
     match (classifierNode model st1 s).1, (classifierNode model st2 s).1 with
     | Ok a, Ok b => intent a = intent b
     | Throw e1, Throw e2 => e1 = e2
     | _, _ => False
     end) ∧
  (∀ name node st1 st2 s,
     (name, node) ∈ responders model →
     content <$> last_message st1 = content <$> last_message st2 →
     (node st1 s).2 = (node st2 s).2 ∧
     match (node st1 s).1, (node st2 s).1 with
     | Ok a, Ok b =>
         ∃ reply, messages a = messages st1 ++ [reply]
                  ∧ messages b = messages st2 ++ [reply]
     | Throw e1, Throw e2 => e1 = e2
     | _, _ => False
     end).
Proof.
  split.
  - intros st1 st2 s Hsame.
    apply (classifies_same model _ intent_labels classifier_input);
      [apply classifierNode_classifies | done].
  - intros name node st1 st2 s Hin Hsame.
    apply (responds_same model _ (responder_input name));
      [by apply responders_respond | done].
Qed.

Lemma nodes_read_last_message_only_witness :
  let model := stub "emotional" "I hear you." in
  let st1 := {| messages := [HumanMessage "Saya sedih hari ini"]; intent := None |} in
  let st2 := {| messages := [HumanMessage "Halo"; {| role := ai; content := "Hello!"; id := None |};
                             HumanMessage "Saya sedih hari ini"];
                intent := Some "general" |} in
  (classifierNode model st1 (boot 0)).2 = (classifierNode model st2 (boot 0)).2 ∧
  (emotionalNode model st1 (boot 0)).2 = (emotionalNode model st2 (boot 0)).2.
Proof.
  intros model st1 st2.
  destruct (nodes_read_last_message_only model) as [Hclassifier Hresponder].
  split.
  - apply (Hclassifier st1 st2 (boot 0)). reflexivity.
  - apply (Hresponder "emotional" (emotionalNode model) st1 st2 (boot 0)).
    + unfold responders. repeat constructor.
    + reflexivity.
Defined.

(** The classifier of the three-label variant reads the same. *)
Lemma basic_classifier_reads_last_message_only {W} (model : Model W) st1 st2 s :
  content <$> last_message st1 = content <$> last_message st2 →
  (Basic.classifierNode model st1 s).2 = (Basic.classifierNode model st2 s).2 ∧
  match (Basic.classifierNode model st1 s).1, (Basic.classifierNode model st2 s).1 with
  | Ok a, Ok b => intent a = intent b
  | Throw e1, Throw e2 => e1 = e2
  | _, _ => False
  end.
Proof.
  intros Hsame.
  apply (classifies_same model _ Basic.intent_labels basic_classifier_input);
    [apply basic_classifierNode_classifies | done].
Qed.


(** ** The path of a turn *)

Section TurnFacts.
Context {W : Type}.
Variable model : Model W.
Implicit Types (st : ChatState) (s : Sys W) (r : Result ChatState).

Lemma app_run st s r s' :
  app model st s = (r, s') →
  turn model intent_labels classifier_input st s r s'.
Proof. apply wired_run with (cls := classifierNode model), workflow_wired. Qed.

Lemma basic_app_run st s r s' :
  Basic.app model st s = (r, s') →
  turn model Basic.intent_labels basic_classifier_input st s r s'.
Proof.
  apply wired_run with (cls := Basic.classifierNode model), basic_workflow_wired.
Qed.

Lemma read_input_last st last :
  last_message (read_input st) = Some last → messages st ≠ [].
Proof.
  intros Hlast Hnil. apply read_input_empty in Hnil.
  by rewrite (last_message_empty _ Hnil) in Hlast.
Qed.

(** The nodes a turn enters: the classifier, then at most one responder,
    and exactly one when the turn returns. *)
Lemma turn_linear labels cin_of st s r s' :
  "classifier" ∉ labels →
  turn model labels cin_of st s r s' →
  ∃ evs,
    trace s' = trace s ++ evs ∧
    graph_inputs evs = [st] ∧
    NoDup (nodes_run evs) ∧
    (∀ st', r = Ok st' →
       ∃ label, label ∈ labels ∧ intent st' = Some label
                ∧ nodes_run evs = ["classifier"; label]
                ∧ ∃ cin rin, model_calls evs = [EvStructured cin; EvInvoke rin]) ∧
    (∀ e, r = Throw e →
       (nodes_run evs = ["classifier"]
        ∨ ∃ label, label ∈ labels ∧ nodes_run evs = ["classifier"; label])
       ∧ ∀ what, e ≠ GraphError what).
Proof.
  intros Hcls Hturn.
  assert (∀ label, label ∈ labels → NoDup ["classifier"; label]) as Hdup.
  { intros label Hlabel. apply NoDup_cons. split.
    - rewrite list_elem_of_singleton. by intros <-.
    - apply NoDup_singleton. }
  inversion Hturn; subst; eexists; (split; [reflexivity|]); simpl;
    (split; [reflexivity|]).
  - split; [apply NoDup_singleton|]. split; [done|].
    intros e [= <-]. split; [by left | done].
  - split; [apply NoDup_singleton|]. split; [done|].
    intros e [= <-]. split; [by left | done].
  - split; [apply NoDup_singleton|]. split; [done|].
    intros e [= <-]. split; [by left | done].
  - split; [by apply Hdup|]. split; [done|].
    intros e [= <-]. split; [right; eauto | done].
  - split; [by apply Hdup|]. split; [|done].
    intros st' [= <-]. eexists. do 3 (split; [done|]). by eexists _, _.
Qed.

(** Where a throwing turn stopped, and on what: in the classifier before
    any call when there is no message; in the classifier after its call
    when the call failed or gave a label outside the schema; in the
    responder named by the label when that responder's call failed. *)
Lemma turn_throws labels cin_of st s e s' :
  turn model labels cin_of st s (Throw e) s' →
  ∃ evs, trace s' = trace s ++ evs ∧
    ((e = TypeError ∧ messages st = []
      ∧ nodes_run evs = ["classifier"] ∧ model_calls evs = [])
     ∨ (∃ last, last_message (read_input st) = Some last
        ∧ (e = ModelError
             ∧ (model_structured model (cin_of (content last)) (world s)).1 = None
           ∨ e = SchemaError
             ∧ ∃ raw, (model_structured model (cin_of (content last)) (world s)).1
                        = Some raw ∧ raw ∉ labels)
        ∧ nodes_run evs = ["classifier"]
        ∧ model_calls evs = [EvStructured (cin_of (content last))])
     ∨ (∃ last label w,
        last_message (read_input st) = Some last
        ∧ model_structured model (cin_of (content last)) (world s) = (Some label, w)
        ∧ label ∈ labels
        ∧ e = ModelError
        ∧ (model_invoke model
             (responder_input label (var_contacts s) (content last)) w).1 = None
        ∧ nodes_run evs = ["classifier"; label]
        ∧ model_calls evs =
            [EvStructured (cin_of (content last));
             EvInvoke (responder_input label (var_contacts s) (content last))])).
Proof.
  intros Hturn.
  inversion Hturn as
    [ Hnil
    | last w Hlast Hcall
    | last raw w Hlast Hcall Hraw
    | last label w1 w2 Hlast Hcall Hlabel Hanswer
    | ]; subst; eexists; (split; [reflexivity|]).
  - by left.
  - right; left. exists last. split; [done|]. split; [|done].
    left. by rewrite Hcall.
  - right; left. exists last. split; [done|]. split; [|done].
    right. split; [done|]. exists raw. by rewrite Hcall.
  - right; right. exists last, label, w1. do 4 (split; [done|]).
    by rewrite Hanswer.
Qed.

(** With a last message to read and a model that answers, a turn returns. *)
Lemma turn_returns labels cin_of st s r s' :
  answers model labels →
  messages st ≠ [] →
  turn model labels cin_of st s r s' →
  ∃ st', r = Ok st'.
Proof.
  intros [Hinvoke Hstructured] Hne Hturn.
  inversion Hturn as
    [ Hnil
    | last w Hlast Hcall
    | last raw w Hlast Hcall Hraw
    | last label w1 w2 Hlast Hcall Hlabel Hanswer
    | last label w1 resp w2 Hlast Hcall Hlabel Hanswer ]; subst.
  - done.
  - destruct (Hstructured (cin_of (content last)) (world s)) as (l & w' & Hc & _).
    congruence.
  - destruct (Hstructured (cin_of (content last)) (world s)) as (l & w' & Hc & Hl).
    congruence.
  - destruct (Hinvoke (responder_input label (var_contacts s) (content last)) w1)
      as (resp & w' & Hc).
    congruence.
  - eauto.
Qed.

End TurnFacts.

(** C4, as stated, fails: not every invocation runs exactly one
    responder. When the classifier throws, the invocation ends there and
    no responder has run: so it is on a message list without a message,
    and so it is when the classification comes back outside the
    enumeration of the schema. *)
Lemma classifier_failure_runs_no_responder :
  let empty := {| messages := []; intent := None |} in
  let st := {| messages := [HumanMessage "Halo"]; intent := None |} in
  (app (stub "general" "Hello!") empty (boot 0)).1 = Throw TypeError ∧
  nodes_run (trace (app (stub "general" "Hello!") empty (boot 0)).2)
    = ["classifier"] ∧
  (app (stub "billing" "Hello!") st (boot 0)).1 = Throw SchemaError ∧
  nodes_run (trace (app (stub "billing" "Hello!") st (boot 0)).2)
    = ["classifier"] ∧
  (∀ name node, (name, node) ∈ responders (stub "billing" "Hello!") →
     name ∉ nodes_run (trace (app (stub "billing" "Hello!") st (boot 0)).2)).
Proof.
  cbv zeta. split; [|split; [|split; [|split]]].
  - vm_compute. reflexivity.
  - vm_compute. reflexivity.
  - vm_compute. reflexivity.
  - vm_compute. reflexivity.
  - assert (nodes_run (trace (app (stub "billing" "Hello!")
              {| messages := [HumanMessage "Halo"]; intent := None |} (boot 0)).2)
            = ["classifier"]) as -> by (vm_compute; reflexivity).
    intros name node Hin Hname. apply list_elem_of_singleton in Hname as ->.
    unfold responders in Hin. rewrite !elem_of_cons, elem_of_nil in Hin.
    destruct Hin as [Hin | [Hin | [Hin | [Hin | []]]]]; discriminate.
Qed.

(** C4, amended: a turn of the graph lies on the straight path from the
    start through the classifier and one responder to the end. Among the
    events of one invocation of the compiled graph the classifier is
    entered first and once and no node is entered twice. An invocation
    that returns has run exactly one responder, the one named by the
    label the classifier stored (the intent of the returned state), with
    one call to the model by each node. An invocation that throws has
    run at most one: none when the classifier throws (no message to
    read, before any call; a failed classification or one outside the
    enumeration, after the one call), and exactly one, the responder
    named by the label, when that responder's call to the model fails.
    It is never the runtime that throws, for a loop or an unknown
    branch. The invocation returns whenever there is a last message to
    read and the model answers. *)
Theorem turn_is_linear {W} (model : Model W) (st : ChatState) (s : Sys W) :
  ∃ evs,
    trace (app model st s).2 = trace s ++ evs ∧
    graph_inputs evs = [st] ∧
    NoDup (nodes_run evs) ∧
    (∃ rest, nodes_run evs = "classifier" :: rest ∧ "classifier" ∉ rest) ∧
    (∀ st', (app model st s).1 = Ok st' →
       ∃ label, label ∈ intent_labels ∧ intent st' = Some label
                ∧ dispatch st' = Some label
                ∧ nodes_run evs = ["classifier"; label]
                ∧ ∃ cin rin, model_calls evs = [EvStructured cin; EvInvoke rin]) ∧
    (∀ e, (app model st s).1 = Throw e →
       (e = TypeError ∧ messages st = []
        ∧ nodes_run evs = ["classifier"] ∧ model_calls evs = [])
       ∨ (∃ last, last_message (read_input st) = Some last
          ∧ (e = ModelError
               ∧ (model_structured model (classifier_input (content last))
                    (world s)).1 = None
             ∨ e = SchemaError
               ∧ ∃ raw, (model_structured model (classifier_input (content last))
                           (world s)).1 = Some raw ∧ raw ∉ intent_labels)
          ∧ nodes_run evs = ["classifier"]
          ∧ model_calls evs = [EvStructured (classifier_input (content last))])
       ∨ (∃ last label w,
          last_message (read_input st) = Some last
          ∧ model_structured model (classifier_input (content last)) (world s)
              = (Some label, w)
          ∧ label ∈ intent_labels
          ∧ e = ModelError
          ∧ (model_invoke model
               (responder_input label (var_contacts s) (content last)) w).1 = None
          ∧ nodes_run evs = ["classifier"; label]
          ∧ model_calls evs =
              [EvStructured (classifier_input (content last));
               EvInvoke (responder_input label (var_contacts s) (content last))])) ∧
    (answers model intent_labels → messages st ≠ [] →
       ∃ st', (app model st s).1 = Ok st').
Proof.
  destruct (app model st s) as [r s'] eqn:Hrun. apply app_run in Hrun.
  destruct (turn_linear model intent_labels classifier_input st s r s')
    as (evs & Htrace & Hinputs & Hdup & Hok & Hthrow); [compute_done | done |].
  exists evs. simpl. do 3 (split; [done|]).
  split; [|split; [|split]].
  - destruct r as [st'|e].
    + destruct (Hok st' eq_refl) as (label & Hlabel & _ & Hnodes & _).
      exists [label]. split; [done|]. rewrite Hnodes in Hdup.
      by apply NoDup_cons in Hdup as [? _].
    + destruct (Hthrow e eq_refl) as [[Hnodes | (label & Hlabel & Hnodes)] _].
      * exists []. split; [done|]. by intros ?%elem_of_nil.
      * exists [label]. split; [done|]. rewrite Hnodes in Hdup.
        by apply NoDup_cons in Hdup as [? _].
  - intros st' Hst'.
    destruct (Hok st' Hst') as (label & Hlabel & Hintent & Hnodes & Hcalls).
    exists label. do 2 (split; [done|]). split; [|done].
    unfold dispatch, route. rewrite Hintent.
    change (default "logical" (Some label)) with label.
    by rewrite pathMap_same.
  - intros e ->.
    destruct (turn_throws model _ _ _ _ _ _ Hrun) as (evs' & Htrace' & Hcases).
    rewrite Htrace in Htrace'. apply app_inv_head in Htrace' as <-. done.
  - intros Hanswers Hne. by eapply turn_returns.
Qed.

Lemma turn_is_linear_witness :
  let model := stub "general" "Hello!" in
  let st := {| messages := [HumanMessage "Halo"]; intent := None |} in
  ∃ evs, trace (app model st (boot 0)).2 = evs ∧
         nodes_run evs = ["classifier"; "general"] ∧
         ∃ st', (app model st (boot 0)).1 = Ok st'.
Proof.
  intros model st.
  destruct (turn_is_linear model st (boot 0))
    as (evs & Htrace & _ & _ & _ & Hok & _ & Hreturns).
  destruct Hreturns as [st' Hst'].
  - split; intros input w; simpl; eauto. eexists _, _. split; [done | compute_done].
  - simpl. discriminate.
  - exists evs. split; [done|]. split; [|eauto].
    destruct (Hok st' Hst') as (label & _ & Hintent & _ & Hnodes & _).
    rewrite Hnodes. vm_compute in Hst'. injection Hst' as <-.
    by injection Hintent as <-.
Defined.

(** X14: a turn of the three-label variant is the straight path from
    the classifier through one responder: the classifier is entered
    first and once; when the invocation returns, exactly one responder
    was entered, named by the stored label, with one call to the model by
    each node; a throwing invocation stops on that path and never by an
    error of the runtime; the invocation returns whenever there is a last
    message and the model answers within the schema. *)
Lemma basic_turn_path {W} (model : Model W) (st : ChatState) (s : Sys W) :
  ∃ evs,
    trace (Basic.app model st s).2 = trace s ++ evs ∧
    graph_inputs evs = [st] ∧
    NoDup (nodes_run evs) ∧
    (∀ st', (Basic.app model st s).1 = Ok st' →
       ∃ label, label ∈ Basic.intent_labels ∧ intent st' = Some label
                ∧ nodes_run evs = ["classifier"; label]
                ∧ ∃ cin rin, model_calls evs = [EvStructured cin; EvInvoke rin]) ∧
    (∀ e, (Basic.app model st s).1 = Throw e →
       (nodes_run evs = ["classifier"]
        ∨ ∃ label, label ∈ Basic.intent_labels
                   ∧ nodes_run evs = ["classifier"; label])
       ∧ ∀ what, e ≠ GraphError what) ∧
    (answers model Basic.intent_labels → messages st ≠ [] →
       ∃ st', (Basic.app model st s).1 = Ok st').
Proof.
  destruct (Basic.app model st s) as [r s'] eqn:Hrun. apply basic_app_run in Hrun.
  destruct (turn_linear model Basic.intent_labels basic_classifier_input st s r s')
    as (evs & Htrace & Hinputs & Hdup & Hok & Hthrow); [compute_done | done |].
  exists evs. simpl. do 5 (split; [done|]).
  intros Hanswers Hne. by eapply turn_returns.
Qed.

(** ** Strings *)

Lemma string_app_assoc (a b c : string) : (a +:+ b) +:+ c = a +:+ b +:+ c.
Proof.
  induction a as [|x a IH]; [reflexivity|].
  change (String x ((a +:+ b) +:+ c) = String x (a +:+ b +:+ c)). by f_equal.
Qed.

Lemma string_app_nil_r (a : string) : a +:+ EmptyString = a.
Proof.
  induction a as [|x a IH]; [reflexivity|].
  change (String x (a +:+ EmptyString) = String x a). by f_equal.
Qed.

Lemma contains_refl (a : string) : contains a a.
Proof. exists EmptyString, EmptyString. by rewrite string_app_nil_r. Qed.

Lemma contains_app_l (x a b : string) : contains x a → contains x (a +:+ b).
Proof.
  intros (pre & post & ->). exists pre, (post +:+ b).
  by rewrite !string_app_assoc.
Qed.

Lemma contains_app_r (x a b : string) : contains x b → contains x (a +:+ b).
Proof.
  intros (pre & post & ->). exists (a +:+ pre), post.
  by rewrite !string_app_assoc.
Qed.

Lemma contains_trans (x y z : string) : contains x y → contains y z → contains x z.
Proof.
  intros Hxy (pre & post & ->).
  by apply contains_app_r, contains_app_l.
Qed.

Lemma toLowerCase_length (line : string) :
  String.length (toLowerCase line) = String.length line.
Proof. induction line as [|c line IH]; [done|]. simpl. by rewrite IH. Qed.

(** ** The contact list as the model reads it *)

Lemma json_escape_plain (c : ascii) :
  json_plain c = true → json_escape c = String c EmptyString.
Proof.
  destruct c as [[] [] [] [] [] [] [] []]; vm_compute; intros H;
    try discriminate H; reflexivity.
Qed.

Lemma json_escape_string_plain (s : string) :
  all_plain s = true → json_escape_string s = s.
Proof.
  induction s as [|c s IH]; [done|].
  simpl. intros [Hc Hs]%andb_prop.
  rewrite (json_escape_plain c Hc), (IH Hs). reflexivity.
Qed.

Lemma json_elements_contains (cs : list Contact) (c : Contact) :
  c ∈ cs → contains (json_contact c) (json_elements cs).
Proof.
  induction cs as [|c0 cs IH]; [by intros ?%elem_of_nil|].
  intros [-> | Hin]%elem_of_cons.
  - destruct cs as [|c1 cs].
    + apply contains_app_r, contains_refl.
    + change (json_elements (c0 :: c1 :: cs))
        with ("  " +:+ json_contact c0 +:+ "," +:+ newline +:+ json_elements (c1 :: cs)).
      apply contains_app_r, contains_app_l, contains_refl.
  - destruct cs as [|c1 cs]; [by apply elem_of_nil in Hin|].
    change (json_elements (c0 :: c1 :: cs))
      with ("  " +:+ json_contact c0 +:+ "," +:+ newline +:+ json_elements (c1 :: cs)).
    do 4 apply contains_app_r. by apply IH.
Qed.

Lemma JSON_stringify_contains (cs : list Contact) (c : Contact) :
  c ∈ cs → contains (json_contact c) (JSON_stringify cs).
Proof.
  intros Hin. destruct cs as [|c0 cs]; [by apply elem_of_nil in Hin|].
  unfold JSON_stringify.
  do 2 apply contains_app_r. by apply contains_app_l, json_elements_contains.
Qed.

Lemma json_contact_fields (c : Contact) :
  contains (json_string "name" +:+ ": " +:+ json_string (name c)) (json_contact c) ∧
  contains (json_string "phone" +:+ ": " +:+ json_string (phone c)) (json_contact c) ∧
  contains (json_string "city" +:+ ": " +:+ json_string (city c)) (json_contact c).
Proof.
  unfold json_contact, contains. split; [|split].
  - eexists ("{" +:+ newline +:+ "    "), _.
    rewrite !string_app_assoc. reflexivity.
  - eexists ("{" +:+ newline +:+
             "    " +:+ json_string "name" +:+ ": " +:+ json_string (name c)
             +:+ "," +:+ newline +:+ "    "), _.
    rewrite !string_app_assoc. reflexivity.
  - eexists ("{" +:+ newline +:+
             "    " +:+ json_string "name" +:+ ": " +:+ json_string (name c)
             +:+ "," +:+ newline +:+
             "    " +:+ json_string "phone" +:+ ": " +:+ json_string (phone c)
             +:+ "," +:+ newline +:+ "    "), _.
    rewrite !string_app_assoc. reflexivity.
Qed.


(** ** The contact list in the prompt *)

Lemma quoted_contains (prefix text : string) :
  contains text (prefix +:+ dq +:+ text +:+ dq).
Proof.
  exists (prefix +:+ dq), dq. by rewrite string_app_assoc.
Qed.

(** Every entry of the list is in the prompt, member by member. *)
Lemma contact_prompt_entries (cs : list Contact) (c : Contact) :
  c ∈ cs →
  contains (json_contact c) (contact_prompt cs) ∧
  contains (json_string "name" +:+ ": " +:+ json_string (name c)) (contact_prompt cs) ∧
  contains (json_string "phone" +:+ ": " +:+ json_string (phone c)) (contact_prompt cs) ∧
  contains (json_string "city" +:+ ": " +:+ json_string (city c)) (contact_prompt cs).
Proof.
  intros Hin.
  assert (contains (json_contact c) (contact_prompt cs)) as Hc.
  { by apply contains_app_r, contains_app_l, JSON_stringify_contains. }
  destruct (json_contact_fields c) as (Hname & Hphone & Hcity).
  split; [done|]. split; [|split]; by eapply contains_trans.
Qed.

(** C8: whenever the classifier stores the label "contact_request", the
    node entered next is the contact responder, and what it sends to the
    model carries the contact list and the latest user message: the
    system prompt is the text of the contact persona around the
    serialized value of the variable [contacts] (which is the static
    list throughout), so that for every contact of the list the prompt
    contains the entry's JSON object with its name, phone and city
    members, a field of ordinary characters standing verbatim between
    double quotes; the human message is the latest user message between
    double quotes after "Pesan user: ". The latest user message is the
    last one of the history as the graph holds it, which for an input
    without a repeated id is the last message of the input. *)
Theorem contact_request_reaches_contact_node {W} (model : Model W)
    (st : ChatState) (s : Sys W) (text : string) (w : W) :
  content <$> last_message (read_input st) = Some text →
  model_structured model (classifier_input text) (world s)
    = (Some "contact_request", w) →
  nodes (workflow model) !! "contact_request" = Some (contactNode model) ∧
  (NoDup (ids (messages st)) → content <$> last_message st = Some text) ∧
  ∃ prompt question,
    trace (app model st s).2 =
      trace s ++ [ EvGraph st; EvNode "classifier";
                   EvStructured (classifier_input text);
                   EvNode "contact_request";
                   EvInvoke [SystemMessage prompt; HumanMessage question] ] ∧
    prompt = contact_prompt_head +:+ JSON_stringify (var_contacts s)
               +:+ contact_prompt_tail ∧
    (∀ c, c ∈ var_contacts s →
       contains (json_contact c) prompt ∧
       contains (json_string "name" +:+ ": " +:+ json_string (name c)) prompt ∧
       contains (json_string "phone" +:+ ": " +:+ json_string (phone c)) prompt ∧
       contains (json_string "city" +:+ ": " +:+ json_string (city c)) prompt) ∧
    (∀ field, all_plain field = true → json_string field = dq +:+ field +:+ dq) ∧
    question = "Pesan user: " +:+ dq +:+ text +:+ dq ∧
    contains text question.
Proof.
  intros Hlast Hcall. split; [reflexivity|]. split.
  { intros Hdup. by rewrite <- (read_input_last_content st Hdup). }
  exists (contact_prompt (var_contacts s)), ("Pesan user: " +:+ dq +:+ text +:+ dq).
  split; [|split; [reflexivity|]; split; [|split; [|split]]].
  - destruct (last_message (read_input st)) as [last|] eqn:Hlast0; [|done].
    injection Hlast as <-.
    destruct (app model st s) as [r s'] eqn:Hrun. apply app_run in Hrun.
    inversion Hrun as
      [ Hnil
      | last' w' Hlast' Hcall'
      | last' raw w' Hlast' Hcall' Hraw
      | last' label w1 w2 Hlast' Hcall' Hlabel Hanswer
      | last' label w1 resp w2 Hlast' Hcall' Hlabel Hanswer ]; subst.
    + apply read_input_empty in Hnil.
      by rewrite (last_message_empty _ Hnil) in Hlast0.
    + congruence.
    + assert (last' = last) as -> by congruence.
      assert (raw = "contact_request") as -> by congruence.
      exfalso. apply Hraw. compute_done.
    + assert (last' = last) as -> by congruence.
      assert (label = "contact_request") as -> by congruence.
      reflexivity.
    + assert (last' = last) as -> by congruence.
      assert (label = "contact_request") as -> by congruence.
      reflexivity.
  - intros c Hin. by apply contact_prompt_entries.
  - intros field Hplain. unfold json_string.
    by rewrite json_escape_string_plain.
  - reflexivity.
  - apply quoted_contains.
Qed.

Lemma contact_request_reaches_contact_node_witness :
  let model := stub "contact_request" "Nomor telepon Andi adalah 08123456789." in
  let st := {| messages := [HumanMessage "Apa nomor telepon Andi?"]; intent := None |} in
  ∃ prompt,
    trace (app model st (boot 0)).2 =
      [ EvGraph st; EvNode "classifier";
        EvStructured (classifier_input "Apa nomor telepon Andi?");
        EvNode "contact_request";
        EvInvoke [SystemMessage prompt;
                  HumanMessage ("Pesan user: " +:+ dq +:+ "Apa nomor telepon Andi?"
                                +:+ dq)] ] ∧
    contains (json_string "name" +:+ ": " +:+ dq +:+ "Andi" +:+ dq) prompt ∧
    contains (json_string "phone" +:+ ": " +:+ dq +:+ "08123456789" +:+ dq) prompt.
Proof.
  intros model st.
  destruct (contact_request_reaches_contact_node model st (boot 0)
              "Apa nomor telepon Andi?" 1)
    as (_ & _ & prompt & question & Htrace & _ & Hentries & Hplain & -> & _).
  - reflexivity.
  - reflexivity.
  - exists prompt. split; [exact Htrace|].
    destruct (Hentries {| name := "Andi"; phone := "08123456789"; city := "Makassar" |})
      as (_ & Hname & Hphone & _).
    { unfold boot, contacts. cbn [var_contacts]. repeat constructor. }
    cbn [name phone] in Hname, Hphone.
    rewrite (Hplain "Andi") in Hname by reflexivity.
    rewrite (Hplain "08123456789") in Hphone by reflexivity.
    by split.
Defined.

(** ** The word that ends the loop *)

Ltac by_bytes a :=
  destruct a as [[] [] [] [] [] [] [] []]; vm_compute;
  intros H; try discriminate H; auto.

Lemma lower_ascii_e (a : ascii) :
  lower_ascii a = "e"%char → a = "e"%char ∨ a = "E"%char.
Proof. by_bytes a. Qed.

Lemma lower_ascii_x (a : ascii) :
  lower_ascii a = "x"%char → a = "x"%char ∨ a = "X"%char.
Proof. by_bytes a. Qed.

Lemma lower_ascii_i (a : ascii) :
  lower_ascii a = "i"%char → a = "i"%char ∨ a = "I"%char.
Proof. by_bytes a. Qed.

Lemma lower_ascii_t (a : ascii) :
  lower_ascii a = "t"%char → a = "t"%char ∨ a = "T"%char.
Proof. by_bytes a. Qed.

(** The lines that lower-case to "exit" are the sixteen spellings of the
    word in upper and lower case. *)
Lemma toLowerCase_exit (line : string) :
  toLowerCase line = "exit" ↔
  ∃ a b c d,
    line = String a (String b (String c (String d EmptyString))) ∧
    (a = "e"%char ∨ a = "E"%char) ∧ (b = "x"%char ∨ b = "X"%char) ∧
    (c = "i"%char ∨ c = "I"%char) ∧ (d = "t"%char ∨ d = "T"%char).
Proof.
  split.
  - destruct line as [|a [|b [|c [|d [|? ?]]]]]; try discriminate.
    simpl. intros [= Ha Hb Hc Hd]. exists a, b, c, d.
    split; [done|].
    split; [by apply lower_ascii_e|]. split; [by apply lower_ascii_x|].
    split; [by apply lower_ascii_i | by apply lower_ascii_t].
  - intros (a & b & c & d & -> & [-> | ->] & [-> | ->] & [-> | ->] & [-> | ->]);
      reflexivity.
Qed.


(** ** The run loop *)

Section LoopFacts.
Context {W : Type}.
Variable model : Model W.
Implicit Types (st : ChatState) (s : Sys W) (run : Node W).

Lemma main_loop_nil run st s :
  main_loop run [] st s = (Ok st, logged s (world s) [EvQuestion "👤 Kamu: "]).
Proof. reflexivity. Qed.

Lemma main_loop_exit run line rest st s :
  toLowerCase line = "exit" →
  main_loop run (line :: rest) st s =
    (Ok st, logged s (world s)
              [EvQuestion "👤 Kamu: "; EvLog "👋 Chat selesai."; EvClose]).
Proof.
  intros Hexit. cbn [main_loop]. unfold bind. rewrite log_run.
  rewrite bool_decide_eq_true_2 by done.
  rewrite !log_run. unfold ret. by tidy.
Qed.

Lemma main_loop_turn run line rest st s :
  toLowerCase line ≠ "exit" →
  main_loop run (line :: rest) st s =
    match run (push_user st line) (logged s (world s) [EvQuestion "👤 Kamu: "]) with
    | (Ok st1, s1) =>
        match last_message st1 with
        | Some last =>
            main_loop run rest st1
              (logged s1 (world s1) [EvLog ("🤖 Bot: " +:+ content last)])
        | None => (Throw TypeError, s1)
        end
    | (Throw e, s1) => (Throw e, s1)
    end.
Proof.
  intros Hexit. cbn [main_loop]. unfold bind at 1. rewrite log_run.
  rewrite bool_decide_eq_false_2 by done.
  unfold bind at 1.
  destruct (run _ _) as [[st1|e] s1]; [|done].
  unfold bind at 1, content_of.
  by destruct (last_message st1) as [last|].
Qed.

(** The history a completed turn returns has a last message: the one
    [main] prints. *)
Lemma merged_last (l : list Message) (resp : Message) (i : option string) :
  last_message {| messages := messagesStateReducer l (l ++ [resp]); intent := i |}
  = Some (default resp (last (messagesStateReducer l (l ++ [resp])))).
Proof.
  rewrite last_message_last. cbn [messages].
  destruct (last _) as [m|] eqn:Hlast; [done|].
  apply last_None in Hlast.
  by apply reducer_nonempty in Hlast; [|right; destruct l].
Qed.

(** What holds of the loop from any point on, for a graph whose turns
    are as [turn] describes. *)
Lemma main_loop_invariant run labels cin_of :
  (∀ st s r s', run st s = (r, s') → turn model labels cin_of st s r s') →
  ∀ lines st s,
    var_contacts (main_loop run lines st s).2 = var_contacts s ∧
    (∃ evs, trace (main_loop run lines st s).2 = trace s ++ evs
            ∧ Forall (λ st', messages st' ≠ []) (graph_inputs evs)) ∧
    (main_loop run lines st s).1 ≠ Throw TypeError.
Proof.
  intros Hrun lines. induction lines as [|line rest IH]; intros st s.
  { rewrite main_loop_nil. simpl. split; [done|]. split; [|done].
    eexists. split; [done|]. by apply Forall_nil. }
  destruct (decide (toLowerCase line = "exit")) as [Hexit|Hexit].
  { rewrite main_loop_exit by done. simpl. split; [done|]. split; [|done].
    eexists. split; [done|]. by apply Forall_nil. }
  rewrite main_loop_turn by done.
  destruct (run _ _) as [r s1] eqn:Hturn. apply Hrun in Hturn.
  assert (messages (push_user st line) ≠ []) as Hpushed.
  { simpl. by destruct (messages st). }
  inversion Hturn as
    [ Hnil
    | last w Hlast Hcall
    | last raw w Hlast Hcall Hraw
    | last label w1 w2 Hlast Hcall Hlabel Hanswer
    | last label w1 resp w2 Hlast Hcall Hlabel Hanswer ]; subst; tidy.
  - done.
  - simpl. split; [done|]. split; [|done].
    eexists. split; [done|]. simpl. by repeat constructor.
  - simpl. split; [done|]. split; [|done].
    eexists. split; [done|]. simpl. by repeat constructor.
  - simpl. split; [done|]. split; [|done].
    eexists. split; [done|]. simpl. by repeat constructor.
  - rewrite (merged_last _ resp (Some label)). tidy.
    match goal with
    | |- context [main_loop run rest ?st1 ?s1] =>
        destruct (IH st1 s1) as (Hcontacts & (evs & Htrace & Hinputs) & Htype)
    end.
    split; [by rewrite Hcontacts|]. split; [|done].
    eexists. split.
    + rewrite Htrace. rewrite logged_trace, <- app_assoc. reflexivity.
    + unfold graph_inputs in *. rewrite omap_app. simpl.
      by apply Forall_cons.
Qed.

Lemma main_invariant lines s :
  var_contacts (main model lines s).2 = var_contacts s ∧
  (∃ evs, trace (main model lines s).2 = trace s ++ evs
          ∧ Forall (λ st', messages st' ≠ []) (graph_inputs evs)) ∧
  (main model lines s).1 ≠ Throw TypeError.
Proof.
  destruct (main_loop_invariant (app model) intent_labels classifier_input
              (app_run model) lines {| messages := []; intent := None |} s)
    as (Hcontacts & Htrace & Htype).
  done.
Qed.

Lemma basic_main_invariant lines s :
  var_contacts (Basic.main model lines s).2 = var_contacts s ∧
  (∃ evs, trace (Basic.main model lines s).2 = trace s ++ evs
          ∧ Forall (λ st', messages st' ≠ []) (graph_inputs evs)) ∧
  (Basic.main model lines s).1 ≠ Throw TypeError.
Proof.
  destruct (main_loop_invariant (Basic.app model) Basic.intent_labels
              basic_classifier_input (basic_app_run model) lines
              {| messages := []; intent := None |} s)
    as (Hcontacts & Htrace & Htype).
  done.
Qed.

End LoopFacts.

(** C2: a line whose lower-case form is "exit" (the word in any letter
    case) ends the loop: the state is returned as it was, with no user
    message appended, the world is untouched, and the only events are the
    question, the farewell and the closing of the prompt, so neither the
    graph, nor the classifier, nor a responder, nor the model is invoked.
    Any other line is appended as a new user message and the graph is
    invoked on the state so extended, the classifier being entered first. *)
Theorem exit_ends_loop {W} (model : Model W) :
  (∀ line rest st s,
     toLowerCase line = "exit" →
     main_loop (app model) (line :: rest) st s =
       (Ok st, logged s (world s)
                 [EvQuestion "👤 Kamu: "; EvLog "👋 Chat selesai."; EvClose])) ∧
  (∀ line rest st s,
     toLowerCase line ≠ "exit" →
     ∃ evs,
       trace (main_loop (app model) (line :: rest) st s).2 =
         trace s ++ [ EvQuestion "👤 Kamu: ";
                      EvGraph {| messages := messages st ++ [HumanMessage line];
                                 intent := intent st |};
                      EvNode "classifier" ] ++ evs) ∧
  (∀ line,
     toLowerCase line = "exit" ↔
     ∃ a b c d,
       line = String a (String b (String c (String d EmptyString))) ∧
       (a = "e"%char ∨ a = "E"%char) ∧ (b = "x"%char ∨ b = "X"%char) ∧
       (c = "i"%char ∨ c = "I"%char) ∧ (d = "t"%char ∨ d = "T"%char)).
Proof.
  split; [|split].
  - intros line rest st s Hexit. by apply main_loop_exit.
  - intros line rest st s Hother.
    rewrite main_loop_turn by done.
    destruct (app model _ _) as [r s1] eqn:Hturn. apply app_run in Hturn.
    inversion Hturn as
      [ Hnil
      | last w Hlast Hcall
      | last raw w Hlast Hcall Hraw
      | last label w1 w2 Hlast Hcall Hlabel Hanswer
      | last label w1 resp w2 Hlast Hcall Hlabel Hanswer ]; subst; tidy.
    + by exists [].
    + by eexists.
    + by eexists.
    + by eexists.
    + rewrite (merged_last _ resp (Some label)).
      match goal with
      | |- context [main_loop ?run rest ?st1 ?s1] =>
          destruct (main_loop_invariant model run intent_labels classifier_input
                      (app_run model) rest st1 s1)
            as (_ & (evs & Htrace & _) & _)
      end.
      rewrite Htrace. tidy. rewrite logged_trace, <- app_assoc. simpl.
      by eexists.
  - apply toLowerCase_exit.
Qed.

Lemma exit_ends_loop_witness :
  let model := stub "general" "Hello!" in
  let st := {| messages := [HumanMessage "Halo"; {| role := ai; content := "Hello!"; id := None |}];
               intent := Some "general" |} in
  main_loop (app model) ["EXIT"; "Halo"] st (boot 0) =
    (Ok st, logged (boot 0) 0
              [EvQuestion "👤 Kamu: "; EvLog "👋 Chat selesai."; EvClose]) ∧
  ∃ evs,
    trace (main_loop (app model) ["exit now"; "Exit"] st (boot 0)).2 =
      [ EvQuestion "👤 Kamu: ";
        EvGraph {| messages := messages st ++ [HumanMessage "exit now"];
                   intent := Some "general" |};
        EvNode "classifier" ] ++ evs.
Proof.
  intros model st.
  destruct (exit_ends_loop model) as (Hexit & Hother & _).
  split.
  - apply (Hexit "EXIT" ["Halo"] st (boot 0)). reflexivity.
  - apply (Hother "exit now" ["Exit"] st (boot 0)). simpl. discriminate.
Defined.

(** The loop of the three-label variant ends on the same word. *)
Lemma basic_loop_exit {W} (model : Model W) line rest st (s : Sys W) :
  toLowerCase line = "exit" →
  main_loop (Basic.app model) (line :: rest) st s =
    (Ok st, logged s (world s)
              [EvQuestion "👤 Kamu: "; EvLog "👋 Chat selesai."; EvClose]).
Proof. apply main_loop_exit. Qed.

(** C3: the conversation history is append-only. Each operation that
    extends the message list, the push of the user's line by the run loop
    and the append of the model's reply by any responder, yields a list
    one longer, with every earlier entry unchanged at its position and
    the new message at the end; the classifier leaves the list as it
    is. *)
Theorem history_is_append_only {W} (model : Model W) :
  (∀ st line,
     messages (push_user st line) = messages st ++ [HumanMessage line] ∧
     appended (messages st) (messages (push_user st line)) (HumanMessage line)) ∧
  (∀ name node st s st',
     (name, node) ∈ responders model →
     (node st s).1 = Ok st' →
     ∃ reply, messages st' = messages st ++ [reply]
              ∧ appended (messages st) (messages st') reply) ∧
  (∀ st s st',
     (classifierNode model st s).1 = Ok st' → messages st' = messages st).
Proof.
  split; [|split].
  - intros st line. split; [done|]. apply appended_snoc.
  - intros name node st s st' Hin Hok.
    rewrite (responders_respond model name node Hin) in Hok.
    destruct (last_message st) as [last|]; [cbv zeta in Hok | done].
    destruct (model_invoke model _ (world s)) as [[reply|] w]; [|done].
    injection Hok as <-. exists reply. split; [done|]. apply appended_snoc.
  - intros st s st' Hok.
    by apply (classifies_result model _ intent_labels classifier_input st s st'
                (classifierNode_classifies model)) in Hok as [? _].
Qed.

Lemma history_is_append_only_witness :
  let model := stub "general" "Hello!" in
  let st := {| messages := [HumanMessage "Halo"]; intent := Some "general" |} in
  ∃ reply,
    (generalNode model st (boot 0)).1 =
      Ok {| messages := [HumanMessage "Halo"; reply]; intent := Some "general" |} ∧
    messages {| messages := [HumanMessage "Halo"; reply]; intent := Some "general" |}
      = messages st ++ [reply] ∧
    appended (messages st) [HumanMessage "Halo"; reply] reply.
Proof.
  intros model st.
  destruct (history_is_append_only model) as (_ & Hresponder & _).
  destruct (Hresponder "general" (generalNode model) st (boot 0)
              {| messages := [HumanMessage "Halo";
                              {| role := ai; content := "Hello!"; id := None |}];
                 intent := Some "general" |}) as (reply & Hreply & Happended).
  - unfold responders. repeat constructor.
  - reflexivity.
  - exists reply. simpl in Hreply. injection Hreply as <-.
    split; [reflexivity|]. split; [reflexivity | exact Happended].
Defined.

(** C7: the contact list is never mutated. The value of the variable
    [contacts] is the same after any node (the classifier, each
    responder, the contact node among them), after any invocation of the
    graph, and after any run of the loop, whatever the model does; from
    start-up on it is the static list of Andi and Budi. *)
Theorem contacts_never_mutated {W} (model : Model W) :
  (∀ name node st s,
     (name, node) ∈ ("classifier", classifierNode model) :: responders model →
     var_contacts (node st s).2 = var_contacts s) ∧
  (∀ st s, var_contacts (app model st s).2 = var_contacts s) ∧
  (∀ lines s, var_contacts (main model lines s).2 = var_contacts s) ∧
  (∀ lines w,
     var_contacts (main model lines (boot w)).2 =
       [ {| name := "Andi"; phone := "08123456789"; city := "Makassar" |};
         {| name := "Budi"; phone := "08987654321"; city := "Bone" |} ]).
Proof.
  split; [|split; [|split]].
  - intros name node st s Hin. apply elem_of_cons in Hin as [[= -> ->] | Hin].
    + rewrite (classifierNode_classifies model).
      destruct (last_message st) as [last|]; [cbv zeta | done].
      destruct (model_structured model _ (world s)) as [[raw|] w]; [|done].
      by case_bool_decide.
    + rewrite (responders_respond model name node Hin).
      destruct (last_message st) as [last|]; [cbv zeta | done].
      by destruct (model_invoke model _ (world s)) as [[reply|] w].
  - intros st s.
    destruct (app model st s) as [r s'] eqn:Hrun. apply app_run in Hrun.
    by inversion Hrun.
  - intros lines s. by apply main_invariant.
  - intros lines w.
    by destruct (main_invariant model lines (boot w)) as [-> _].
Qed.

Lemma contacts_never_mutated_witness :
  var_contacts
    (main (stub "contact_request" "Nomor telepon Andi adalah 08123456789.")
       ["Apa nomor telepon Andi?"; "Halo"; "exit"] (boot 0)).2 = contacts.
Proof.
  destruct (contacts_never_mutated
              (stub "contact_request" "Nomor telepon Andi adalah 08123456789."))
    as (_ & _ & _ & Hboot).
  apply Hboot.
Defined.

(** The same holds of the three-label variant, which has no such list to
    read. *)
Lemma basic_contacts_kept {W} (model : Model W) lines (s : Sys W) :
  var_contacts (Basic.main model lines s).2 = var_contacts s.
Proof. by apply basic_main_invariant. Qed.

(** C10: every node reads the last element of the message list without
    a guard: on an empty list the read of its content throws and the node
    stops there. On a non-empty list the last element is defined and no
    node throws for it. The run loop pushes the user's message before
    each invocation of the graph, so every state the graph is invoked on
    has a non-empty list, and no run of the loop ever throws for a
    missing last message. *)
Theorem last_message_access_is_safe {W} (model : Model W) :
  (∀ st, messages st ≠ [] → is_Some (last_message st)) ∧
  (∀ name node st s,
     (name, node) ∈ ("classifier", classifierNode model) :: responders model →
     (messages st = [] → node st s = (Throw TypeError, s)) ∧
     (messages st ≠ [] → (node st s).1 ≠ Throw TypeError)) ∧
  (∀ lines s,
     ∃ evs,
       trace (main model lines s).2 = trace s ++ evs ∧
       Forall (λ st, messages st ≠ []) (graph_inputs evs) ∧
       (main model lines s).1 ≠ Throw TypeError).
Proof.
  split; [|split].
  - intros st Hne. destruct (last_message_nonempty st Hne) as [last ->]. eauto.
  - intros name node st s Hin. apply elem_of_cons in Hin as [[= -> ->] | Hin].
    + split.
      * by apply (classifies_empty model _ intent_labels classifier_input),
          classifierNode_classifies.
      * intros Hne. destruct (last_message_nonempty st Hne) as [last Hlast].
        destruct (classifies_label model _ intent_labels classifier_input st s last
                    (classifierNode_classifies model) Hlast) as (_ & _ & _ & ->).
        destruct (model_structured model _ (world s)).1 as [raw|]; [|done].
        by case_bool_decide.
    + pose proof (responders_respond model name node Hin) as Hnode. split.
      * by apply (responds_empty model _ (responder_input name)).
      * intros Hne. destruct (last_message_nonempty st Hne) as [last Hlast].
        destruct (responds_reply model _ _ st s last Hnode Hlast) as (_ & _ & _ & ->).
        by destruct (model_invoke model _ (world s)).1 as [reply|].
  - intros lines s.
    destruct (main_invariant model lines s) as (_ & (evs & Htrace & Hinputs) & Htype).
    by exists evs.
Qed.

Lemma last_message_access_is_safe_witness :
  let model := stub "general" "Hello!" in
  is_Some (last_message {| messages := [HumanMessage "Halo"]; intent := None |}) ∧
  classifierNode model {| messages := []; intent := None |} (boot 0)
    = (Throw TypeError, boot 0) ∧
  (logicalNode model {| messages := [HumanMessage "Halo"]; intent := None |} (boot 0)).1
    ≠ Throw TypeError.
Proof.
  intros model.
  destruct (last_message_access_is_safe model) as (Hdefined & Hnodes & _).
  split; [|split].
  - apply Hdefined. simpl. discriminate.
  - apply (Hnodes "classifier" (classifierNode model)
             {| messages := []; intent := None |} (boot 0)).
    + repeat constructor.
    + reflexivity.
  - apply (Hnodes "logical" (logicalNode model)
             {| messages := [HumanMessage "Halo"]; intent := None |} (boot 0)).
    + unfold responders. repeat constructor.
    + simpl. discriminate.
Defined.

(** X15: in the three-label variant too the loop pushes the user's line
    before each invocation: every state its graph is invoked on has a
    non-empty message list, and no run of its loop throws for a missing
    last message. *)
Lemma basic_loop_reads_safely {W} (model : Model W) lines (s : Sys W) :
  ∃ evs,
    trace (Basic.main model lines s).2 = trace s ++ evs ∧
    Forall (λ st, messages st ≠ []) (graph_inputs evs) ∧
    (Basic.main model lines s).1 ≠ Throw TypeError.
Proof.
  destruct (basic_main_invariant model lines s)
    as (_ & (evs & Htrace & Hinputs) & Htype).
  by exists evs.
Qed.


(** * Further properties *)

(** X1: whatever list the variable [contacts] holds, the prompt of the
    contact node carries every entry of it: for each contact in the list
    the prompt contains the entry's JSON object, with its name, phone and
    city members; and a field made of ordinary characters (no control
    character, double quote or backslash) stands there verbatim between
    double quotes. The same holds of the English prompt of the commented
    copy. *)
Theorem contact_prompt_lists_every_contact (cs : list Contact) (c : Contact) :
  c ∈ cs →
  (∀ prompt, prompt = contact_prompt cs ∨ prompt = Commented.contact_prompt cs →
     contains (json_contact c) prompt ∧
     contains (json_string "name" +:+ ": " +:+ json_string (name c)) prompt ∧
     contains (json_string "phone" +:+ ": " +:+ json_string (phone c)) prompt ∧
     contains (json_string "city" +:+ ": " +:+ json_string (city c)) prompt) ∧
  (∀ field, all_plain field = true → json_string field = dq +:+ field +:+ dq).
Proof.
  intros Hin. split.
  - intros prompt Hprompt.
    assert (contains (json_contact c) prompt) as Hc.
    { destruct Hprompt as [-> | ->].
      - by apply contains_app_r, contains_app_l, JSON_stringify_contains.
      - by apply contains_app_r, contains_app_l, JSON_stringify_contains. }
    destruct (json_contact_fields c) as (Hname & Hphone & Hcity).
    split; [done|]. split; [|split]; by eapply contains_trans.
  - intros field Hplain. unfold json_string.
    by rewrite json_escape_string_plain.
Qed.

Lemma contact_prompt_lists_every_contact_witness :
  contains (json_string "phone" +:+ ": " +:+ dq +:+ "08987654321" +:+ dq)
    (contact_prompt contacts).
Proof.
  destruct (contact_prompt_lists_every_contact contacts
              {| name := "Budi"; phone := "08987654321"; city := "Bone" |})
    as (Hprompt & Hplain).
  - unfold contacts. repeat constructor.
  - destruct (Hprompt (contact_prompt contacts)) as (_ & _ & Hphone & _); [by left|].
    cbn [phone] in Hphone.
    rewrite (Hplain "08987654321") in Hphone; [done | reflexivity].
Defined.
(** ** The contact node of the commented copy *)

Lemma commented_contactNode_responds {W} (model : Model W) :
  responds_with model (Commented.contactNode model)
    (λ cs text, [ SystemMessage (Commented.contact_prompt cs);
                  HumanMessage ("Pesan user: " +:+ dq +:+ text +:+ dq) ]).
Proof.
  intros st s.
  unfold Commented.contactNode, bind, content_of, read_contacts, invoke, ret, throw.
  destruct (last_message st) as [last|]; [cbv zeta | reflexivity].
  simpl.
  by destruct (model_invoke model _ (world s)) as [[reply|] w].
Qed.

Lemma commented_prompt_entries (cs : list Contact) (c : Contact) :
  c ∈ cs →
  let prompt := Commented.contact_prompt cs in
  contains (json_contact c) prompt ∧
  contains (json_string "name" +:+ ": " +:+ json_string (name c)) prompt ∧
  contains (json_string "phone" +:+ ": " +:+ json_string (phone c)) prompt ∧
  contains (json_string "city" +:+ ": " +:+ json_string (city c)) prompt.
Proof.
  intros Hin prompt.
  assert (contains (json_contact c) prompt) as Hc.
  { by apply contains_app_r, contains_app_l, JSON_stringify_contains. }
  destruct (json_contact_fields c) as (Hname & Hphone & Hcity).
  split; [done|]. split; [|split]; by eapply contains_trans.
Qed.

(** X2: in the commented copy the node registered as "contact_request"
    is its own contact node, and the label "contact_request" is routed to
    it. On an empty history the node throws at once, before any call; on
    a history with a last message it makes one call: its system prompt
    is the English text of the persona around the serialized value of
    [contacts], so that it contains the JSON object of every contact of
    the list with its name, phone and city members, and its human
    message is the last message between double quotes after
    "Pesan user: "; the node leaves [contacts] as it is, and with the
    model's reply it returns the state with that reply appended and the
    intent unchanged. *)
Theorem commented_contact_node {W} (model : Model W) (st : ChatState) (s : Sys W) :
  nodes (Commented.workflow model) !! "contact_request"
    = Some (Commented.contactNode model) ∧
  (∀ st1, intent st1 = Some "contact_request" →
     next_node (Commented.workflow model) "classifier" st1 = ret "contact_request") ∧
  (messages st = [] → Commented.contactNode model st s = (Throw TypeError, s)) ∧
  (∀ last, last_message st = Some last →
     let prompt := Commented.contact_prompt_head
                     +:+ JSON_stringify (var_contacts s)
                     +:+ Commented.contact_prompt_tail in
     let question := "Pesan user: " +:+ dq +:+ content last +:+ dq in
     trace (Commented.contactNode model st s).2 =
       trace s ++ [EvInvoke [SystemMessage prompt; HumanMessage question]] ∧
     (∀ c, c ∈ var_contacts s →
        contains (json_contact c) prompt ∧
        contains (json_string "name" +:+ ": " +:+ json_string (name c)) prompt ∧
        contains (json_string "phone" +:+ ": " +:+ json_string (phone c)) prompt ∧
        contains (json_string "city" +:+ ": " +:+ json_string (city c)) prompt) ∧
     (∀ field, all_plain field = true → json_string field = dq +:+ field +:+ dq) ∧
     contains (content last) question ∧
     var_contacts (Commented.contactNode model st s).2 = var_contacts s ∧
     ∀ reply w,
       model_invoke model [SystemMessage prompt; HumanMessage question] (world s)
         = (Some reply, w) →
       (Commented.contactNode model st s).1 =
         Ok {| messages := messages st ++ [reply]; intent := intent st |}).
Proof.
  pose proof (commented_contactNode_responds model) as Hnode.
  split; [reflexivity|]. split; [|split].
  - intros st1 Hintent. unfold next_node.
    change (edges (Commented.workflow model) !! "classifier") with (@None string).
    change (branches (Commented.workflow model) !! "classifier")
      with (Some (route, pathMap)).
    unfold route. by rewrite Hintent.
  - by apply (responds_empty model _ _ st s Hnode).
  - intros last Hlast prompt question.
    destruct (responds_reply model _ _ st s last Hnode Hlast)
      as (Htrace & Hcontacts & _ & Hresult).
    split; [done|]. split.
    { intros c Hin. by apply commented_prompt_entries. }
    split.
    { intros field Hplain. unfold json_string. by rewrite json_escape_string_plain. }
    split; [apply quoted_contains|]. split; [done|].
    intros reply w Hcall. rewrite Hresult. cbv zeta beta.
    unfold Commented.contact_prompt. subst prompt question. by rewrite Hcall.
Qed.

Lemma commented_contact_node_witness :
  let model := stub "contact_request" "Andi's number is 08123456789." in
  let st := {| messages := [HumanMessage "What is Andi's number?"];
               intent := Some "contact_request" |} in
  (Commented.contactNode model st (boot 0)).1 =
    Ok {| messages := [HumanMessage "What is Andi's number?";
                       {| role := ai; content := "Andi's number is 08123456789.";
                          id := None |}];
          intent := Some "contact_request" |} ∧
  contains (json_string "phone" +:+ ": " +:+ dq +:+ "08123456789" +:+ dq)
    (Commented.contact_prompt contacts).
Proof.
  intros model st.
  destruct (commented_contact_node model st (boot 0)) as (_ & _ & _ & Hlast).
  destruct (Hlast (HumanMessage "What is Andi's number?"))
    as (_ & Hentries & Hplain & _ & _ & Hreply); [reflexivity|].
  split.
  - apply (Hreply _ 1). reflexivity.
  - destruct (Hentries {| name := "Andi"; phone := "08123456789"; city := "Makassar" |})
      as (_ & _ & Hphone & _).
    { unfold boot, contacts. cbn [var_contacts]. repeat constructor. }
    cbn [phone] in Hphone.
    rewrite (Hplain "08123456789") in Hphone by reflexivity.
    exact Hphone.
Defined.

(** ** One pass of the loop *)

Section LoopCases.
Context {W : Type}.
Variable model : Model W.
Implicit Types (st : ChatState) (s : Sys W) (run : Node W).

Lemma uuid_fresh (used : list string) : uuid used ∉ used.
Proof. apply infinite_is_fresh. Qed.

Lemma merge_one_bound (merged : list Message) (m : Message) :
  length (merge_one merged m) ≤ S (length merged).
Proof.
  unfold merge_one. destruct (id m) as [x|]; [destruct (find_id merged x)|];
    rewrite ?length_insert, ?length_app; simpl; lia.
Qed.

(** The history a completed turn returns is that of the channel with the
    reply merged in: as long or one longer. *)
Lemma merged_length (l : list Message) (resp : Message) :
  clean l →
  length l ≤ length (messagesStateReducer l (l ++ [resp])) ≤ S (length l).
Proof.
  intros Hclean. rewrite (reducer_snoc l resp Hclean).
  split; [apply merge_one_length | apply merge_one_bound].
Qed.

(** On a clean history the line pushed is the last message the graph
    holds. *)
Lemma pushed_last st line :
  clean (messages st) →
  content <$> last_message (read_input (push_user st line)) = Some line.
Proof.
  intros Hclean. rewrite last_message_last. unfold push_user.
  rewrite (read_input_pushed _ _ _ Hclean). by rewrite last_snoc.
Qed.

Lemma pushed_length st line :
  clean (messages st) →
  length (messages (read_input (push_user st line))) = S (length (messages st)).
Proof.
  intros Hclean. unfold push_user.
  rewrite (read_input_pushed _ _ _ Hclean), length_app. simpl. lia.
Qed.

(** What one line that is not the exit word does to the loop: either the
    turn fails on a call to the model and the loop ends there, or the
    turn is completed, the content of the last message of the history
    returned is printed, and the loop goes on with that history. The
    calls are made on [text], the content of the last message the graph
    holds after the push. *)
Lemma main_loop_cases run labels cin_of line rest st s :
  (∀ st s r s', run st s = (r, s') → turn model labels cin_of st s r s') →
  toLowerCase line ≠ "exit" →
  let held := messages (read_input (push_user st line)) in
  ∃ text,
    content <$> last held = Some text ∧
    ((∃ e w evs,
        (e = ModelError ∨ e = SchemaError) ∧
        ¬ answers model labels ∧
        (evs = [EvStructured (cin_of text)]
         ∨ ∃ label, label ∈ labels ∧
             evs = [EvStructured (cin_of text); EvNode label;
                    EvInvoke (responder_input label (var_contacts s) text)]) ∧
        main_loop run (line :: rest) st s =
          (Throw e, logged s w ([EvQuestion "👤 Kamu: "; EvGraph (push_user st line);
                                 EvNode "classifier"] ++ evs)))
     ∨
     (∃ label reply w shown,
        label ∈ labels ∧
        last (messagesStateReducer held (held ++ [reply])) = Some shown ∧
        main_loop run (line :: rest) st s =
          main_loop run rest
            {| messages := messagesStateReducer held (held ++ [reply]);
               intent := Some label |}
            (logged s w [EvQuestion "👤 Kamu: "; EvGraph (push_user st line);
                         EvNode "classifier"; EvStructured (cin_of text);
                         EvNode label;
                         EvInvoke (responder_input label (var_contacts s) text);
                         EvLog ("🤖 Bot: " +:+ content shown)]))).
Proof.
  intros Hrun Hline held. rewrite main_loop_turn by done.
  destruct (run _ _) as [r s1] eqn:Hturn. apply Hrun in Hturn.
  assert (messages (push_user st line) ≠ []) as Hpushed.
  { simpl. by destruct (messages st). }
  assert (∀ e, r = Throw e → ¬ answers model labels) as Hfail.
  { intros e -> Hanswers.
    by destruct (turn_returns model labels cin_of _ _ _ _ Hanswers Hpushed Hturn). }
  inversion Hturn as
    [ Hnil
    | lm w Hlast Hcall
    | lm raw w Hlast Hcall Hraw
    | lm label w1 w2 Hlast Hcall Hlabel Hanswer
    | lm label w1 reply w2 Hlast Hcall Hlabel Hanswer ]; subst; [done|..];
    exists (content lm);
    (split; [unfold held; by rewrite <- last_message_last, Hlast|]); tidy.
  - left. exists ModelError, w, [EvStructured (cin_of (content lm))].
    split; [by left|]. split; [by eapply Hfail|]. split; [by left | done].
  - left. exists SchemaError, w, [EvStructured (cin_of (content lm))].
    split; [by right|]. split; [by eapply Hfail|]. split; [by left | done].
  - left. exists ModelError, w2. eexists.
    split; [by left|]. split; [by eapply Hfail|]. split; [right; eauto | done].
  - right. rewrite (merged_last _ reply (Some label)). tidy.
    exists label, reply, w2. eexists. split; [done|]. split; [|reflexivity].
    fold held. destruct (last _) as [m|] eqn:Hm; [done|].
    apply last_None in Hm.
    by apply reducer_nonempty in Hm; [|right; destruct held].
Qed.

End LoopCases.

(** ** Whole runs of the loop *)

(** [e] is not among the events listed. *)
Ltac not_among H :=
  repeat (apply elem_of_cons in H as [H | H]; [discriminate H|]);
  try (by apply elem_of_nil in H).

Section RunFacts.
Context {W : Type}.
Variable model : Model W.
Variables (run : Node W) (labels : list string) (cin_of : string → list Message).
Hypothesis Hrun :
  ∀ st s r s', run st s = (r, s') → turn model labels cin_of st s r s'.
Implicit Types (st : ChatState) (s : Sys W).

Lemma main_loop_stops_at_exit (other : Node W) pre e rest st s :
  toLowerCase e = "exit" →
  main_loop other (pre ++ e :: rest) st s = main_loop other (pre ++ [e]) st s.
Proof.
  intros Hexit. revert st s.
  induction pre as [|line pre IH]; intros st s.
  { rewrite !app_nil_l. by rewrite !main_loop_exit. }
  rewrite <- !app_comm_cons.
  destruct (decide (toLowerCase line = "exit")) as [Hline|Hline].
  { by rewrite !main_loop_exit. }
  rewrite !main_loop_turn by done.
  destruct (other _ _) as [[st1|err] s1]; [|done].
  destruct (last_message st1) as [lm|]; [|done].
  apply IH.
Qed.

Lemma main_loop_forwards line rest st s :
  toLowerCase line ≠ "exit" →
  ∃ evs,
    trace (main_loop run (line :: rest) st s).2 =
      trace s ++ [EvQuestion "👤 Kamu: "; EvGraph (push_user st line);
                  EvNode "classifier"] ++ evs.
Proof.
  intros Hline.
  destruct (main_loop_cases model run labels cin_of line rest st s Hrun Hline)
    as (text & _ & [(e & w & evs & _ & _ & _ & ->)
                   | (label & reply & w & shown & _ & _ & ->)]).
  - by exists evs.
  - match goal with
    | |- context [main_loop run rest ?st1 ?s1] =>
        destruct (main_loop_invariant model run labels cin_of Hrun rest st1 s1)
          as (_ & (evs & -> & _) & _)
    end.
    rewrite logged_trace, <- app_assoc. simpl. by eexists.
Qed.

Lemma main_loop_ends lines st s :
  ∃ evs,
    trace (main_loop run lines st s).2 = trace s ++ evs ∧
    match (main_loop run lines st s).1 with
    | Throw e =>
        (e = ModelError ∨ e = SchemaError) ∧
        (EvClose ∉ evs) ∧
        ∃ call, last evs = Some call ∧ is_model_call call = true
    | Ok _ =>
        (Exists (λ line, toLowerCase line = "exit") lines
         ∧ last evs = Some EvClose)
        ∨ (Forall (λ line, toLowerCase line ≠ "exit") lines
           ∧ (EvClose ∉ evs)
           ∧ last evs = Some (EvQuestion "👤 Kamu: "))
    end.
Proof.
  revert st s. induction lines as [|line rest IH]; intros st s.
  { rewrite main_loop_nil. eexists. split; [done|]. simpl. right.
    split; [by apply Forall_nil|]. split; [|done]. intros H. not_among H. }
  destruct (decide (toLowerCase line = "exit")) as [Hline|Hline].
  { rewrite main_loop_exit by done. eexists. split; [done|]. simpl. left.
    split; [by apply Exists_cons_hd | done]. }
  destruct (main_loop_cases model run labels cin_of line rest st s Hrun Hline)
    as (text & _ & [(e & w & evs & He & _ & Hevs & ->)
                   | (label & reply & w & shown & _ & _ & ->)]).
  - eexists. split; [done|]. simpl. split; [done|].
    destruct Hevs as [-> | (label & _ & ->)]; simpl.
    + split; [intros H; not_among H | by eexists].
    + split; [intros H; not_among H | by eexists].
  - match goal with
    | |- context [main_loop run rest ?st1 ?s1] =>
        destruct (IH st1 s1) as (evs & Htrace & Hend)
    end.
    eexists. split.
    { rewrite Htrace, logged_trace, <- app_assoc. reflexivity. }
    destruct (main_loop run rest _ _).1 as [st'|e].
    + destruct Hend as [[Hexit Hlast] | (Hnone & Hclose & Hlast)].
      * left. split; [by apply Exists_cons_tl|].
        by rewrite last_app, Hlast.
      * right. split; [by apply Forall_cons|]. split.
        -- intros [H | H]%elem_of_app; [not_among H | done].
        -- by rewrite last_app, Hlast.
    + destruct Hend as (He & Hclose & call & Hlast & Hcall).
      split; [done|]. split.
      * intros [H | H]%elem_of_app; [not_among H | done].
      * exists call. by rewrite last_app, Hlast.
Qed.

(** From a history as the channel holds it, every call is made on the
    line just typed. *)
Lemma main_loop_calls lines st s :
  clean (messages st) →
  ∃ evs,
    trace (main_loop run lines st s).2 = trace s ++ evs ∧
    Forall (λ call,
              ∃ line, line ∈ lines ∧
                (call = EvStructured (cin_of line)
                 ∨ ∃ label, label ∈ labels ∧
                     call = EvInvoke (responder_input label (var_contacts s) line)))
           (model_calls evs).
Proof.
  revert st s. induction lines as [|line rest IH]; intros st s Hclean.
  { rewrite main_loop_nil. eexists. split; [done|]. by apply Forall_nil. }
  destruct (decide (toLowerCase line = "exit")) as [Hline|Hline].
  { rewrite main_loop_exit by done. eexists. split; [done|]. by apply Forall_nil. }
  assert (line ∈ line :: rest) as Hhere by apply list_elem_of_here.
  destruct (main_loop_cases model run labels cin_of line rest st s Hrun Hline)
    as (text & Htext & Hcases).
  rewrite <- last_message_last, (pushed_last st line Hclean) in Htext.
  injection Htext as <-.
  destruct Hcases as [(e & w & evs & _ & _ & Hevs & ->)
                     | (label & reply & w & shown & Hlabel & _ & ->)].
  - eexists. split; [done|].
    destruct Hevs as [-> | (label & Hlabel & ->)]; simpl.
    + apply Forall_cons. split; [|by apply Forall_nil]. exists line. eauto.
    + apply Forall_cons. split; [exists line; eauto|].
      apply Forall_cons. split; [|by apply Forall_nil]. exists line. eauto.
  - match goal with
    | |- context [main_loop run rest ?st1 ?s1] =>
        destruct (IH st1 s1) as (evs & Htrace & Hcalls)
    end.
    { apply reducer_clean, read_input_clean. }
    eexists. split.
    { rewrite Htrace, logged_trace, <- app_assoc. reflexivity. }
    unfold model_calls. rewrite List.filter_app. simpl.
    apply Forall_cons. split; [exists line; eauto|].
    apply Forall_cons. split; [exists line; eauto|].
    eapply Forall_impl; [exact Hcalls|].
    intros call (line' & Hin & Hcall). exists line'.
    split; [by apply list_elem_of_further | done].
Qed.

(** A run over lines none of which is the exit word, when it returns:
    one invocation of the graph, two nodes, two calls and one printed
    line per line typed; the history, merged by id, has grown by one or
    two messages per line and is as the channel holds it. *)
Lemma main_loop_completed lines st s st' :
  clean (messages st) →
  Forall (λ line, toLowerCase line ≠ "exit") lines →
  (main_loop run lines st s).1 = Ok st' →
  ∃ evs,
    trace (main_loop run lines st s).2 = trace s ++ evs ∧
    length (graph_inputs evs) = length lines ∧
    length (nodes_run evs) = 2 * length lines ∧
    length (model_calls evs) = 2 * length lines ∧
    length (printed evs) = length lines ∧
    length (messages st) + length lines ≤ length (messages st') ∧
    length (messages st') ≤ length (messages st) + 2 * length lines ∧
    clean (messages st').
Proof.
  revert st s. induction lines as [|line rest IH]; intros st s Hclean Hlines.
  { rewrite main_loop_nil. simpl. intros [= <-].
    exists [EvQuestion "👤 Kamu: "]. repeat split; try done; try lia; apply Hclean. }
  apply Forall_cons in Hlines as [Hline Hrest].
  pose proof (pushed_length st line Hclean) as Hpushed.
  pose proof (read_input_clean (push_user st line)) as Hheld.
  destruct (main_loop_cases model run labels cin_of line rest st s Hrun Hline)
    as (text & _ & [(e & w & evs & _ & _ & _ & ->)
                   | (label & reply & w & shown & _ & _ & ->)]); [done|].
  intros Hok.
  pose proof (merged_length _ reply Hheld) as Hmerged.
  match type of Hok with
  | context [main_loop run rest ?st1 ?s1] =>
      destruct (IH st1 s1 (reducer_clean _ _ Hheld) Hrest Hok)
        as (evs & -> & Hgraphs & Hnodes & Hcalls & Hprinted & Hlow & Hhigh & Hclean')
  end.
  cbn [messages] in Hlow, Hhigh.
  eexists. split; [rewrite logged_trace, <- app_assoc; reflexivity|].
  split; [|split; [|split; [|split; [|split; [|split]]]]].
  - unfold graph_inputs in *. rewrite omap_app, length_app. simpl. by rewrite Hgraphs.
  - unfold nodes_run in *. rewrite omap_app, length_app. simpl. lia.
  - unfold model_calls in *. rewrite List.filter_app, length_app. simpl. lia.
  - unfold printed in *. rewrite omap_app, length_app. simpl. by rewrite Hprinted.
  - simpl. lia.
  - simpl. lia.
  - done.
Qed.

Lemma main_loop_returns lines st s :
  answers model labels → ∃ st', (main_loop run lines st s).1 = Ok st'.
Proof.
  intros Hanswers. revert st s.
  induction lines as [|line rest IH]; intros st s.
  { rewrite main_loop_nil. by eexists. }
  destruct (decide (toLowerCase line = "exit")) as [Hline|Hline].
  { rewrite main_loop_exit by done. by eexists. }
  destruct (main_loop_cases model run labels cin_of line rest st s Hrun Hline)
    as (text & _ & [(e & w & evs & _ & Hnot & _)
                   | (label & reply & w & shown & _ & _ & ->)]); [done|].
  apply IH.
Qed.

End RunFacts.

(** X3: nothing typed after the exit word is read. A run of the loop
    over lines that hold the word "exit" (in any letter case) at some
    place is the run over the lines up to and including that place,
    whatever follows; this holds of the loop of each of the three
    listings. *)
Theorem lines_after_exit_are_ignored {W} (model : Model W)
    (pre : list string) (e : string) (rest : list string) (s : Sys W) :
  toLowerCase e = "exit" →
  main model (pre ++ e :: rest) s = main model (pre ++ [e]) s ∧
  Basic.main model (pre ++ e :: rest) s = Basic.main model (pre ++ [e]) s ∧
  Commented.main model (pre ++ e :: rest) s = Commented.main model (pre ++ [e]) s.
Proof.
  intros Hexit. unfold main, Basic.main, Commented.main.
  split; [|split]; by apply main_loop_stops_at_exit.
Qed.

Lemma lines_after_exit_are_ignored_witness :
  main (stub "general" "Hello!") (["Halo"] ++ "Exit" :: ["Apa kabar?"; "exit"]) (boot 0)
  = main (stub "general" "Hello!") (["Halo"] ++ ["Exit"]) (boot 0).
Proof.
  destruct (lines_after_exit_are_ignored (stub "general" "Hello!")
              ["Halo"] "Exit" ["Apa kabar?"; "exit"] (boot 0)) as (Hmain & _ & _).
  - reflexivity.
  - exact Hmain.
Defined.

(** X4: the exit test neither trims nor guards against empty input: a
    line that is not exactly four characters long (the empty line, or
    the word "exit" with a blank before or after it) is not the exit
    word; it is pushed as a user message and the graph is invoked on
    it. *)
Theorem other_lengths_are_forwarded {W} (model : Model W)
    (line : string) (rest : list string) (st : ChatState) (s : Sys W) :
  String.length line ≠ 4 →
  toLowerCase line ≠ "exit" ∧
  ∃ evs,
    trace (main_loop (app model) (line :: rest) st s).2 =
      trace s ++ [ EvQuestion "👤 Kamu: ";
                   EvGraph {| messages := messages st ++ [HumanMessage line];
                              intent := intent st |};
                   EvNode "classifier" ] ++ evs.
Proof.
  intros Hlen.
  assert (toLowerCase line ≠ "exit") as Hline.
  { intros Hexit. apply Hlen. by rewrite <- toLowerCase_length, Hexit. }
  split; [done|].
  by apply (main_loop_forwards model (app model) intent_labels classifier_input
              (app_run model)).
Qed.

Lemma other_lengths_are_forwarded_witness :
  ∃ evs,
    trace (main_loop (app (stub "general" "Hello!")) ["exit "; "exit"]
             {| messages := []; intent := None |} (boot 0)).2 =
      [ EvQuestion "👤 Kamu: ";
        EvGraph {| messages := [HumanMessage "exit "]; intent := None |};
        EvNode "classifier" ] ++ evs.
Proof.
  destruct (other_lengths_are_forwarded (stub "general" "Hello!") "exit " ["exit"]
              {| messages := []; intent := None |} (boot 0)) as [_ Hforward].
  - simpl. discriminate.
  - exact Hforward.
Defined.

(** X5: how a run of the loop ends. If it throws, the error is that of a
    failed call to the model (a rejected call or an answer outside the
    schema), the failed call is the last event, and the prompt is never
    closed. If it returns, then either some line was the exit word and
    the closing of the prompt is the last event, or no line was, the
    prompt is not closed and the last event is a question left pending.
    This holds with and without the contact lookup. *)
Theorem run_ends {W} (model : Model W) (lines : list string) (s : Sys W) :
  ∀ program, program = main model ∨ program = Basic.main model →
  ∃ evs,
    trace (program lines s).2 = trace s ++ evs ∧
    match (program lines s).1 with
    | Throw e =>
        (e = ModelError ∨ e = SchemaError) ∧
        (EvClose ∉ evs) ∧
        ∃ call, last evs = Some call ∧ is_model_call call = true
    | Ok _ =>
        (Exists (λ line, toLowerCase line = "exit") lines
         ∧ last evs = Some EvClose)
        ∨ (Forall (λ line, toLowerCase line ≠ "exit") lines
           ∧ (EvClose ∉ evs)
           ∧ last evs = Some (EvQuestion "👤 Kamu: "))
    end.
Proof.
  intros program [-> | ->].
  - apply (main_loop_ends model (app model) intent_labels classifier_input
             (app_run model)).
  - apply (main_loop_ends model (Basic.app model) Basic.intent_labels
             basic_classifier_input (basic_app_run model)).
Qed.

Lemma run_ends_witness :
  ∃ evs,
    trace (main (stub "billing" "Hello!") ["Halo"; "exit"] (boot 0)).2 = evs ∧
    (main (stub "billing" "Hello!") ["Halo"; "exit"] (boot 0)).1 = Throw SchemaError ∧
    (EvClose ∉ evs).
Proof.
  destruct (run_ends (stub "billing" "Hello!") ["Halo"; "exit"] (boot 0)
              (main (stub "billing" "Hello!"))) as (evs & Htrace & Hend);
    [by left|].
  exists evs. split; [done|].
  change ((main (stub "billing" "Hello!") ["Halo"; "exit"] (boot 0)).1)
    with (@Throw ChatState SchemaError) in *.
  split; [done|]. apply Hend.
Defined.

(** X6: the model never sees the history. Every call to the model made
    during a run of the loop is built from one typed line alone: it is
    the classifier's call on that line, or a responder's call on that
    line (with the contact list, for the contact node). *)
Theorem model_sees_only_the_current_line {W} (model : Model W)
    (lines : list string) (s : Sys W) :
  ∃ evs,
    trace (main model lines s).2 = trace s ++ evs ∧
    Forall (λ call,
              ∃ line, line ∈ lines ∧
                (call = EvStructured (classifier_input line)
                 ∨ ∃ label, label ∈ intent_labels ∧
                     call = EvInvoke (responder_input label (var_contacts s) line)))
           (model_calls evs).
Proof.
  apply (main_loop_calls model (app model) intent_labels classifier_input
           (app_run model)).
  apply clean_nil.
Qed.

(** X7: what a completed turn does to the history. The graph holds the
    history merged by message id. On a history as the channel holds it
    (every message with an id, no id twice), the line pushed by the loop
    enters with a new id, and the classifier and the responder are
    called on that line. The reply is then merged in: a reply without
    an id is given a new one and appended; a reply whose id is new to
    the history is appended as it is; a reply whose id is that of a
    message of the history replaces that message at its place, the
    history growing by the user's line alone. The history returned is
    again as the channel holds it. *)
Theorem turn_merges_reply {W} (model : Model W)
    (h : list Message) (i : option string) (line : string) (s : Sys W)
    (st' : ChatState) :
  clean h →
  (app model (push_user {| messages := h; intent := i |} line) s).1 = Ok st' →
  ∃ u reply,
    (u ∉ ids h) ∧
    let held := h ++ [{| role := human; content := line; id := Some u |}] in
    (∃ label w w',
       model_structured model (classifier_input line) (world s) = (Some label, w) ∧
       model_invoke model (responder_input label (var_contacts s) line) w
         = (Some reply, w') ∧
       intent st' = Some label) ∧
    match id reply with
    | None =>
        ∃ x, (x ∉ ids held) ∧
             messages st' =
               held ++ [{| role := role reply; content := content reply;
                           id := Some x |}]
    | Some x =>
        (x ∉ ids held → messages st' = held ++ [reply]) ∧
        (∀ k old, held !! k = Some old → id old = Some x →
                  messages st' = <[k := reply]> held)
    end ∧
    clean (messages st').
Proof.
  intros Hclean Hok.
  destruct (app model _ s) as [r s'] eqn:Hrun. apply app_run in Hrun.
  simpl in Hok. subst r.
  pose proof (read_input_clean (push_user {| messages := h; intent := i |} line))
    as Hheld.
  inversion Hrun as
    [ | | | | lm label w1 reply w2 Hlast Hcall Hlabel Hanswer Hresult Hsys ]; subst.
  clear Hrun. rewrite last_message_last in Hlast.
  pose proof (read_input_pushed h i line Hclean) as Hpushed.
  unfold push_user, read_input, apply_update in Hlast, Hheld, Hpushed |- *.
  cbn [messages intent] in Hlast, Hheld, Hpushed |- *.
  rewrite Hpushed in Hlast, Hheld |- *.
  rewrite last_snoc in Hlast. injection Hlast as <-. cbn [content] in *.
  exists (uuid (ids h)), reply. split; [apply uuid_fresh|]. cbv zeta.
  split; [by exists label, w1, w2|].
  split; [|by apply reducer_clean].
  cbn [messages]. rewrite (reducer_snoc _ reply Hheld).
  destruct (id reply) as [x|] eqn:Hid.
  - split.
    + intros Hnew. unfold merge_one. rewrite Hid.
      by apply find_id_None in Hnew as ->.
    + intros k old Hk Hold. unfold merge_one. rewrite Hid.
      by rewrite (find_id_unique _ k old x (proj2 Hheld) Hk Hold).
  - eexists. split; [|unfold merge_one; cbn [id]].
    + intros Hin. eapply uuid_fresh, elem_of_app. left. exact Hin.
    + assert (find_id
                (h ++ [{| role := human; content := line; id := Some (uuid (ids h)) |}])
                (uuid (ids (h ++ [{| role := human; content := line;
                                     id := Some (uuid (ids h)) |}])
                       ++ ids (h ++ [{| role := human; content := line;
                                        id := Some (uuid (ids h)) |}])))
              = None) as ->; [|reflexivity].
      apply find_id_None. intros Hin. eapply uuid_fresh, elem_of_app. left. exact Hin.
Qed.

Lemma turn_merges_reply_witness :
  let model := stub_with_id "general" "Baik." "X" in
  let h := [ {| role := human; content := "Halo"; id := Some "0" |};
             {| role := ai; content := "Baik."; id := Some "X" |} ] in
  ∃ u st',
    (app model (push_user {| messages := h; intent := Some "general" |} "Apa kabar?")
       (boot 0)).1 = Ok st' ∧
    messages st' =
      [ {| role := human; content := "Halo"; id := Some "0" |};
        {| role := ai; content := "Baik."; id := Some "X" |};
        {| role := human; content := "Apa kabar?"; id := Some u |} ].
Proof.
  intros model h.
  assert (clean h) as Hclean.
  { split; [repeat constructor; by eexists|]. simpl. apply NoDup_cons. split.
    - rewrite list_elem_of_singleton. discriminate.
    - apply NoDup_singleton. }
  destruct (app model (push_user {| messages := h; intent := Some "general" |}
                         "Apa kabar?") (boot 0)).1 as [st'|e] eqn:Hok;
    [|vm_compute in Hok; discriminate Hok].
  destruct (turn_merges_reply model h (Some "general") "Apa kabar?" (boot 0) st'
              Hclean Hok)
    as (u & reply & _ & (label & w & w' & _ & Hreply & _) & Hmerge & _).
  simpl in Hreply. injection Hreply as <- _. cbn [id] in Hmerge.
  destruct Hmerge as [_ Hthere].
  exists u, st'. split; [reflexivity|].
  apply (Hthere 1 {| role := ai; content := "Baik."; id := Some "X" |});
    reflexivity.
Defined.

(** X8: what completed turns cost and leave. When no line is the exit
    word and the run returns, the graph was invoked once per line, two
    nodes were entered and the model was called twice per line, one line
    was printed per line typed, and the history holds at least one and
    at most two messages per line, each with an id and no id twice. *)
Theorem completed_turns_account {W} (model : Model W)
    (lines : list string) (s : Sys W) (st' : ChatState) :
  Forall (λ line, toLowerCase line ≠ "exit") lines →
  (main model lines s).1 = Ok st' →
  ∃ evs,
    trace (main model lines s).2 = trace s ++ evs ∧
    length (graph_inputs evs) = length lines ∧
    length (nodes_run evs) = 2 * length lines ∧
    length (model_calls evs) = 2 * length lines ∧
    length (printed evs) = length lines ∧
    length lines ≤ length (messages st') ∧
    length (messages st') ≤ 2 * length lines ∧
    clean (messages st').
Proof.
  intros Hlines Hok.
  destruct (main_loop_completed model (app model) intent_labels classifier_input
              (app_run model) lines {| messages := []; intent := None |} s st'
              clean_nil Hlines Hok)
    as (evs & Htrace & Hgraphs & Hnodes & Hcalls & Hprinted & Hlow & Hhigh & Hclean).
  by exists evs.
Qed.

Lemma completed_turns_account_witness :
  let model := stub_with_id "general" "Baik." "X" in
  ∃ evs st',
    trace (main model ["Halo"; "Apa kabar?"] (boot 0)).2 = evs ∧
    (main model ["Halo"; "Apa kabar?"] (boot 0)).1 = Ok st' ∧
    length (model_calls evs) = 4 ∧
    length (printed evs) = 2 ∧
    length (messages st') ≤ 4.
Proof.
  intros model.
  destruct (main model ["Halo"; "Apa kabar?"] (boot 0)).1 as [st'|e] eqn:Hok;
    [|vm_compute in Hok; discriminate Hok].
  destruct (completed_turns_account model ["Halo"; "Apa kabar?"] (boot 0) st')
    as (evs & Htrace & _ & _ & Hcalls & Hprinted & _ & Hhigh & _).
  - repeat constructor; simpl; discriminate.
  - exact Hok.
  - exists evs, st'. split; [exact Htrace|]. split; [reflexivity|].
    split; [exact Hcalls|]. split; [exact Hprinted | exact Hhigh].
Defined.

(** X9: with a model that answers every call and classifies within the
    schema, a run of the loop never throws, whatever is typed; this
    holds with and without the contact lookup. *)
Theorem run_returns_when_model_answers {W} (model : Model W)
    (lines : list string) (s : Sys W) :
  (answers model intent_labels → ∃ st', (main model lines s).1 = Ok st') ∧
  (answers model Basic.intent_labels → ∃ st', (Basic.main model lines s).1 = Ok st').
Proof.
  split; intros Hanswers.
  - by apply (main_loop_returns model (app model) intent_labels classifier_input
                (app_run model)).
  - by apply (main_loop_returns model (Basic.app model) Basic.intent_labels
                basic_classifier_input (basic_app_run model)).
Qed.

Lemma run_returns_when_model_answers_witness :
  ∃ st', (main (stub "emotional" "I hear you.")
            ["Saya sedih hari ini"; ""; "EXIT"] (boot 0)).1 = Ok st'.
Proof.
  destruct (run_returns_when_model_answers (stub "emotional" "I hear you.")
              ["Saya sedih hari ini"; ""; "EXIT"] (boot 0)) as [Hmain _].
  apply Hmain.
  split; intros input w; simpl; eauto.
  eexists _, _. split; [done | compute_done].
Defined.

(** ** A turn and the history *)

Section TurnReads.
Context {W : Type}.
Variable model : Model W.
Implicit Types (st : ChatState) (s : Sys W).

Lemma model_calls_logged s w evs :
  model_calls (trace (logged s w evs)) = model_calls (trace s) ++ model_calls evs.
Proof. unfold model_calls. simpl. apply List.filter_app. Qed.

Lemma turn_same labels cin_of st1 st2 s r1 s1 r2 s2 :
  content <$> last_message (read_input st1)
    = content <$> last_message (read_input st2) →
  turn model labels cin_of st1 s r1 s1 →
  turn model labels cin_of st2 s r2 s2 →
  world s1 = world s2 ∧
  model_calls (trace s1) = model_calls (trace s2) ∧
  match r1, r2 with
  | Ok a, Ok b =>
      intent a = intent b ∧
      ∃ reply,
        messages a = messagesStateReducer (messages (read_input st1))
                       (messages (read_input st1) ++ [reply])
        ∧ messages b = messagesStateReducer (messages (read_input st2))
                         (messages (read_input st2) ++ [reply])
  | Throw e1, Throw e2 => e1 = e2
  | _, _ => False
  end.
Proof.
  intros Hsame H1 H2.
  inversion H1 as
    [ Hnil
    | lm w Hlast Hcall
    | lm raw w Hlast Hcall Hraw
    | lm label w1 w2 Hlast Hcall Hlabel Hanswer
    | lm label w1 reply w2 Hlast Hcall Hlabel Hanswer ];
  inversion H2 as
    [ Hnil'
    | lm' w' Hlast' Hcall'
    | lm' raw' w' Hlast' Hcall' Hraw'
    | lm' label' w1' w2' Hlast' Hcall' Hlabel' Hanswer'
    | lm' label' w1' reply' w2' Hlast' Hcall' Hlabel' Hanswer' ];
  subst;
  try (apply read_input_empty, last_message_empty in Hnil; rewrite Hnil in Hsame);
  try (apply read_input_empty, last_message_empty in Hnil'; rewrite Hnil' in Hsame);
  try rewrite Hlast in Hsame; try rewrite Hlast' in Hsame;
  simpl in Hsame; try discriminate Hsame;
  try (injection Hsame as Hcontent; rewrite Hcontent in *);
  rewrite !model_calls_logged; simpl;
  try (rewrite Hcall in Hcall'); simplify_eq;
  try done;
  try (rewrite Hanswer in Hanswer'); simplify_eq;
  try done.
  all: split; [done|]; split; [done|]; first [done | split; [done|]; by eexists].
Qed.

End TurnReads.

(** X10: a turn has no memory. Two invocations of the graph from the
    same state of the process, on states without a repeated message id
    whose last messages have the same content, make the same calls to
    the model, leave the same world, and end alike: either both throw
    the same error, or both return with the same label stored and the
    same reply merged, each into its own history as the graph holds it.
    The earlier messages and the intent carried over from the previous
    turn change nothing of what is asked and answered. *)
Theorem turn_ignores_history {W} (model : Model W)
    (st1 st2 : ChatState) (s : Sys W) :
  NoDup (ids (messages st1)) →
  NoDup (ids (messages st2)) →
  content <$> last_message st1 = content <$> last_message st2 →
  world (app model st1 s).2 = world (app model st2 s).2 ∧
  model_calls (trace (app model st1 s).2) = model_calls (trace (app model st2 s).2) ∧
  match (app model st1 s).1, (app model st2 s).1 with
  | Ok a, Ok b =>
      intent a = intent b ∧
      ∃ reply,
        messages a = messagesStateReducer (messages (read_input st1))
                       (messages (read_input st1) ++ [reply])
        ∧ messages b = messagesStateReducer (messages (read_input st2))
                         (messages (read_input st2) ++ [reply])
  | Throw e1, Throw e2 => e1 = e2
  | _, _ => False
  end.
Proof.
  intros Hdup1 Hdup2 Hsame.
  rewrite <- (read_input_last_content st1 Hdup1),
          <- (read_input_last_content st2 Hdup2) in Hsame.
  destruct (app model st1 s) as [r1 s1] eqn:H1.
  destruct (app model st2 s) as [r2 s2] eqn:H2.
  apply app_run in H1. apply app_run in H2.
  by apply (turn_same model intent_labels classifier_input st1 st2 s).
Qed.

Lemma turn_ignores_history_witness :
  let model := stub "general" "Hello!" in
  let st1 := {| messages := [HumanMessage "Halo"]; intent := None |} in
  let st2 := {| messages := [ {| role := human; content := "Saya sedih"; id := Some "0" |};
                              {| role := ai; content := "..."; id := Some "1" |};
                              HumanMessage "Halo" ];
                intent := Some "emotional" |} in
  model_calls (trace (app model st1 (boot 0)).2)
  = model_calls (trace (app model st2 (boot 0)).2).
Proof.
  intros model st1 st2.
  destruct (turn_ignores_history model st1 st2 (boot 0)) as (_ & Hcalls & _).
  - simpl. apply NoDup_nil_2.
  - simpl. apply NoDup_cons. split.
    + rewrite list_elem_of_singleton. discriminate.
    + apply NoDup_singleton.
  - reflexivity.
  - exact Hcalls.
Defined.

(** X11: the default of the dispatcher is never taken in a run of the
    graph. Whenever the classifier returns, the state it hands to the
    dispatcher has a label, a member of the schema; the selector returns
    that label, not its default for a missing one, and the label leads
    to a responder. This holds with and without the contact lookup, and
    on the first turn too, where the loop passes no label in. *)
Theorem fallback_is_never_taken {W} (model : Model W)
    (st : ChatState) (s : Sys W) (st1 : ChatState) (s1 : Sys W) :
  (classifierNode model st s = (Ok st1, s1) →
     intent st1 = Some (route st1) ∧
     route st1 ∈ intent_labels ∧
     next_node (workflow model) "classifier" st1 = ret (route st1) ∧
     ∃ node, (route st1, node) ∈ responders model) ∧
  (Basic.classifierNode model st s = (Ok st1, s1) →
     intent st1 = Some (route st1) ∧
     route st1 ∈ Basic.intent_labels ∧
     next_node (Basic.workflow model) "classifier" st1 = ret (route st1)).
Proof.
  split; intros Hrun.
  - destruct (classifies_result model _ intent_labels classifier_input st s st1
                (classifierNode_classifies model)) as (_ & label & Hintent & Hlabel).
    { by rewrite Hrun. }
    assert (route st1 = label) as -> by (unfold route; by rewrite Hintent).
    split; [done|]. split; [done|]. split.
    + by apply (wired_branch model _ _ _ _ (workflow_wired model)).
    + destruct (responder_of_label model label Hlabel) as (node & Hnode & _). eauto.
  - destruct (classifies_result model _ Basic.intent_labels basic_classifier_input
                st s st1 (basic_classifierNode_classifies model))
      as (_ & label & Hintent & Hlabel).
    { by rewrite Hrun. }
    assert (route st1 = label) as -> by (unfold route; by rewrite Hintent).
    split; [done|]. split; [done|].
    by apply (wired_branch model _ _ _ _ (basic_workflow_wired model)).
Qed.

Lemma fallback_is_never_taken_witness :
  let model := stub "emotional" "I hear you." in
  let st := {| messages := [HumanMessage "Saya sedih"]; intent := None |} in
  route {| messages := [HumanMessage "Saya sedih"]; intent := Some "emotional" |}
    ∈ intent_labels.
Proof.
  intros model st.
  destruct (fallback_is_never_taken model st (boot 0)
              {| messages := [HumanMessage "Saya sedih"]; intent := Some "emotional" |}
              (logged (boot 0) 1 [EvStructured (classifier_input "Saya sedih")]))
    as [Hfull _].
  apply Hfull. reflexivity.
Defined.

(** ** The three-label variant on examples *)

Lemma basic_routing_table_witness :
  Basic.dispatch {| messages := [HumanMessage "Halo"]; intent := Some "general" |}
    = Some "general" ∧
  Basic.dispatch {| messages := [HumanMessage "Halo"]; intent := None |}
    = Some "logical" ∧
  Basic.dispatch {| messages := [HumanMessage "Apa nomor Andi?"];
                    intent := Some "contact_request" |} = None ∧
  next_node (Basic.workflow (stub "general" "Hello!")) "classifier"
    {| messages := [HumanMessage "Halo"]; intent := Some "constructor" |}
    = ret END.
Proof.
  destruct (basic_routing_table (stub "general" "Hello!"))
    as (Hlabel & Hmissing & Hother).
  split; [|split; [|split]].
  - apply (Hlabel _ "general"); [compute_done | reflexivity].
  - apply Hmissing. reflexivity.
  - apply (Hother _ "contact_request"); [reflexivity | compute_done].
  - destruct (Hother {| messages := [HumanMessage "Halo"];
                        intent := Some "constructor" |} "constructor")
      as [_ Hnext]; [reflexivity | compute_done |].
    exact Hnext.
Defined.

Lemma basic_classifier_frame_witness :
  Basic.classifierNode (stub "logical" "2 + 2 equals 4.")
    {| messages := [HumanMessage "Berapa 2 + 2?"]; intent := None |} (boot 0) =
  (Ok {| messages := [HumanMessage "Berapa 2 + 2?"]; intent := Some "logical" |},
   logged (boot 0) 1 [EvStructured (basic_classifier_input "Berapa 2 + 2?")]).
Proof.
  destruct (basic_classifier_frame (stub "logical" "2 + 2 equals 4.")
              {| messages := [HumanMessage "Berapa 2 + 2?"]; intent := None |} (boot 0))
    as (input & Htrace & Hlabel & _).
  - simpl. discriminate.
  - injection Htrace as <-. apply (Hlabel _ 1); [reflexivity | compute_done].
Defined.

Lemma basic_turn_path_witness :
  let model := stub "logical" "2 + 2 equals 4." in
  let st := {| messages := [HumanMessage "Berapa 2 + 2?"]; intent := None |} in
  ∃ st', (Basic.app model st (boot 0)).1 = Ok st'.
Proof.
  intros model st.
  destruct (basic_turn_path model st (boot 0)) as (evs & _ & _ & _ & _ & _ & Hreturns).
  apply Hreturns.
  - split; intros input w; simpl; eauto. eexists _, _. split; [done | compute_done].
  - simpl. discriminate.
Defined.

Lemma basic_loop_reads_safely_witness :
  (Basic.main (stub "logical" "2 + 2 equals 4.") ["Berapa 2 + 2?"; "exit"] (boot 0)).1
    ≠ Throw TypeError.
Proof.
  destruct (basic_loop_reads_safely (stub "logical" "2 + 2 equals 4.")
              ["Berapa 2 + 2?"; "exit"] (boot 0)) as (evs & _ & _ & Hsafe).
  exact Hsafe.
Defined.

